(** * objectstore: a chunked object allocator with an intrusive free list

    Shallow embedding of [pkg/store/objectstore/object_store.go] and of the
    hidden-generation reference of the [pointerstore] package, together with
    the properties claimed for them.

    Conventions.
    - Go's [uint32] values are integers of [Z] reduced with [wrap32]; Go's
      [int] (64 bit) counters are reduced with [wrapInt].
    - A panic is an outcome of a computation; the store a panicking call
      leaves behind is part of the result, so that what a call wrote before
      it panicked is visible.
    - A Go pointer [*O] into [s.objects] (and [*meta] into [s.meta]) is the
      pair of slice indices it was taken at.  The inner arrays are never
      reallocated, so such a pair denotes the same cell for ever. *)

From Stdlib Require Import ZArith Lia.
From stdpp Require Import base tactics option list gmap.

Local Open Scope Z_scope.

(** ** Machine integers *)

Definition wrap32 (x : Z) : Z := x mod 2 ^ 32.

Definition wrapInt (x : Z) : Z := (x + 2 ^ 63) mod 2 ^ 64 - 2 ^ 63.

Module ObjectStore.

(** ** Data *)

(** [Reference[O]] is used by the store through its two [uint32] fields,
    its zero value, [IsNil] and [==]. *)
Record Reference : Type := mkRef { chunk : Z; offset : Z }.

Global Instance Reference_eq_dec : EqDecision Reference.
Proof. solve_decision. Defined.

Definition nilRef : Reference := mkRef 0 0.

(** Modelled from the spec: the declaration of [Reference] and its method
    [IsNil] are not part of the given sources; "a nil Reference has all
    fields zero" and "is_nil(): true iff all fields are zero". *)
Definition IsNil (r : Reference) : bool := (chunk r =? 0) && (offset r =? 0).

(** Go's [==] on the struct. *)
Definition ref_eqb (a b : Reference) : bool :=
  (chunk a =? chunk b) && (offset a =? offset b).

Record meta : Type := mkMeta { nextFree : Reference }.

Definition zeroMeta : meta := mkMeta nilRef.

Record Stats : Type := mkStats {
  Allocs : Z;
  Frees : Z;
  RawAllocs : Z;
  Live : Z;
  Reused : Z;
  Chunks : Z
}.

(** A pointer into [s.objects] or [s.meta]: outer index, inner index. *)
Definition Ptr : Type := (nat * nat)%type.

Definition objectChunkSize : Z := 1024.
Arguments objectChunkSize : simpl never.

Inductive panic : Type :=
| GetFreed (r : Reference)     (* "attempted to Get freed object" *)
| FreeFreed (r : Reference)    (* "attempted to Free freed object" *)
| IndexOutOfRange.             (* Go's run time bounds check *)

Inductive outcome (A : Type) : Type :=
| Ret (a : A)
| Panic (e : panic).
Arguments Ret {A} a.
Arguments Panic {A} e.

Definition get2 {A : Type} (ll : list (list A)) (p : Ptr) : option A :=
  match ll !! p.1 with
  | Some l => l !! p.2
  | None => None
  end.

Definition set2 {A : Type} (ll : list (list A)) (p : Ptr) (v : A) : list (list A) :=
  alter (fun l => <[p.2 := v]> l) p.1 ll.

(** [s.meta[r.chunk-1][r.offset-1]]: the indices, computed in [uint32]. *)
Definition slotOf (r : Reference) : Ptr :=
  (Z.to_nat (wrap32 (chunk r - 1)), Z.to_nat (wrap32 (offset r - 1))).

Section Store.

Context {O : Type}.
(** The zero value of [O], as [make([]O, n)] fills a new slice with. *)
Variable zeroO : O.

(** The field [offset] of the store is [s_offset] and its field [meta] is
    [s_meta] here: [offset] is the field of [Reference] and [meta] the type. *)
Record Store : Type := mkStore {
  chunkSize : Z;
  allocs : Z;
  frees : Z;
  reused : Z;
  s_offset : Z;
  rootFree : Reference;
  s_meta : list (list meta);
  objects : list (list O)
}.

Definition set_allocs (v : Z) (s : Store) : Store :=
  mkStore (chunkSize s) v (frees s) (reused s) (s_offset s) (rootFree s) (s_meta s) (objects s).
Definition set_frees (v : Z) (s : Store) : Store :=
  mkStore (chunkSize s) (allocs s) v (reused s) (s_offset s) (rootFree s) (s_meta s) (objects s).
Definition set_reused (v : Z) (s : Store) : Store :=
  mkStore (chunkSize s) (allocs s) (frees s) v (s_offset s) (rootFree s) (s_meta s) (objects s).
Definition set_offset (v : Z) (s : Store) : Store :=
  mkStore (chunkSize s) (allocs s) (frees s) (reused s) v (rootFree s) (s_meta s) (objects s).
Definition set_rootFree (v : Reference) (s : Store) : Store :=
  mkStore (chunkSize s) (allocs s) (frees s) (reused s) (s_offset s) v (s_meta s) (objects s).
Definition set_meta (v : list (list meta)) (s : Store) : Store :=
  mkStore (chunkSize s) (allocs s) (frees s) (reused s) (s_offset s) (rootFree s) v (objects s).
Definition set_objects (v : list (list O)) (s : Store) : Store :=
  mkStore (chunkSize s) (allocs s) (frees s) (reused s) (s_offset s) (rootFree s) (s_meta s) v.

(** ** Computations on the store that may panic *)

Definition M (A : Type) : Type := Store -> outcome A * Store.

Definition ret {A : Type} (a : A) : M A := fun s => (Ret a, s).

Definition raise {A : Type} (e : panic) : M A := fun s => (Panic e, s).

Definition bind {A B : Type} (m : M A) (k : A -> M B) : M B :=
  fun s =>
    match m s with
    | (Ret a, s') => k a s'
    | (Panic e, s') => (Panic e, s')
    end.

Definition gets {A : Type} (f : Store -> A) : M A := fun s => (Ret (f s), s).

Definition modify (f : Store -> Store) : M unit := fun s => (Ret tt, f s).

Notation "x <- m ;; k" := (bind m (fun x => k))
  (at level 62, m at next level, right associativity).
Notation "m ;;; k" := (bind m (fun _ => k))
  (at level 62, right associativity).

(** Reading and writing through a [*meta]; the pointer was bounds checked
    when it was taken, a dangling one reads the zero value. *)
Definition readMeta (p : Ptr) : M meta :=
  gets (fun s => default zeroMeta (get2 (s_meta s) p)).

Definition writeMeta (p : Ptr) (m : meta) : M unit :=
  modify (fun s => set_meta (set2 (s_meta s) p m) s).

(** Reading and writing through a [*O]. *)
Definition load (s : Store) (p : Ptr) : option O := get2 (objects s) p.

Definition store (s : Store) (p : Ptr) (v : O) : Store :=
  set_objects (set2 (objects s) p v) s.

(** ** The store *)

Definition New : Store :=
  let chunkSize := wrap32 objectChunkSize in
  mkStore chunkSize 0 0 0 0 nilRef
    [replicate (Z.to_nat chunkSize) zeroMeta]
    [replicate (Z.to_nat chunkSize) zeroO].

Definition getObject (r : Reference) : M Ptr :=
  fun s =>
    match get2 (objects s) (slotOf r) with
    | Some _ => (Ret (slotOf r), s)
    | None => (Panic IndexOutOfRange, s)
    end.

Definition getMeta (r : Reference) : M Ptr :=
  fun s =>
    match get2 (s_meta s) (slotOf r) with
    | Some _ => (Ret (slotOf r), s)
    | None => (Panic IndexOutOfRange, s)
    end.

Definition allocFromOffset : M (Reference * Ptr) :=
  chunk <- gets (fun s => wrap32 (Z.of_nat (length (objects s)))) ;;
  modify (fun s => set_offset (wrap32 (s_offset s + 1)) s) ;;;
  offset <- gets s_offset ;;
  full <- gets (fun s => s_offset s =? chunkSize s) ;;
  (if full : bool then
     modify (fun s =>
       set_meta (s_meta s ++ [replicate (Z.to_nat (chunkSize s)) zeroMeta]) s) ;;;
     modify (fun s =>
       set_objects (objects s ++ [replicate (Z.to_nat (chunkSize s)) zeroO]) s) ;;;
     modify (set_offset 0)
   else ret tt) ;;;
  p <- getObject (mkRef chunk offset) ;;
  ret (mkRef chunk offset, p).

Definition allocFromFree : M (Reference * Ptr) :=
  alloc <- gets rootFree ;;
  freeMeta <- getMeta alloc ;;
  m <- readMeta freeMeta ;;
  let nextFree := nextFree m in
  writeMeta freeMeta (mkMeta nilRef) ;;;
  modify (set_rootFree nextFree) ;;;
  (if ref_eqb nextFree alloc then modify (set_rootFree nilRef) else ret tt) ;;;
  p <- getObject alloc ;;
  ret (alloc, p).

Definition Alloc : M (Reference * Ptr) :=
  modify (fun s => set_allocs (wrapInt (allocs s + 1)) s) ;;;
  root <- gets rootFree ;;
  if IsNil root then allocFromOffset
  else
    modify (fun s => set_reused (wrapInt (reused s + 1)) s) ;;;
    allocFromFree.

Definition Get (r : Reference) : M Ptr :=
  mp <- getMeta r ;;
  m <- readMeta mp ;;
  if negb (IsNil (nextFree m)) then raise (GetFreed r)
  else getObject r.

Definition Free (r : Reference) : M unit :=
  mp <- getMeta r ;;
  m <- readMeta mp ;;
  if negb (IsNil (nextFree m)) then raise (FreeFreed r)
  else
    modify (fun s => set_frees (wrapInt (frees s + 1)) s) ;;;
    root <- gets rootFree ;;
    (if IsNil root then writeMeta mp (mkMeta r)
     else writeMeta mp (mkMeta root)) ;;;
    modify (set_rootFree r).

Definition GetStats (s : Store) : Stats :=
  mkStats (allocs s) (frees s)
    (wrapInt (allocs s - reused s))
    (wrapInt (allocs s - frees s))
    (reused s)
    (Z.of_nat (length (objects s))).

(** ** A client of the store

    What a program outside the package can do with a store: the fields of
    [Reference] are not exported, so the references a client passes to [Get]
    and [Free] are those [Alloc] returned to it, or the zero value
    [Reference[O]{}]; it may write through the pointers it was given at any
    time, and it may recover from a panic and go on. *)

Inductive handle : Type :=
| Issued (i : nat)      (* the reference returned by the i-th successful Alloc *)
| ZeroValue.            (* Reference[O]{} *)

Inductive op : Type :=
| OpAlloc
| OpFree (h : handle)
| OpGet (h : handle)
| OpStore (i : nat) (v : O).   (* *p = v, p the pointer of the i-th Alloc *)

Record client : Type := mkClient {
  c_store : Store;
  c_refs : list (Reference * Ptr)
}.

Definition handleRef (refs : list (Reference * Ptr)) (h : handle) : option Reference :=
  match h with
  | Issued i => fst <$> refs !! i
  | ZeroValue => Some nilRef
  end.

Definition step (c : client) (o : op) : client :=
  match o with
  | OpAlloc =>
      match Alloc (c_store c) with
      | (Ret rp, s') => mkClient s' (c_refs c ++ [rp])
      | (Panic _, s') => mkClient s' (c_refs c)
      end
  | OpFree h =>
      match handleRef (c_refs c) h with
      | Some r => mkClient (Free r (c_store c)).2 (c_refs c)
      | None => c
      end
  | OpGet h =>
      match handleRef (c_refs c) h with
      | Some r => mkClient (Get r (c_store c)).2 (c_refs c)
      | None => c
      end
  | OpStore i v =>
      match c_refs c !! i with
      | Some (_, p) => mkClient (store (c_store c) p v) (c_refs c)
      | None => c
      end
  end.

Definition run (ops : list op) : client := foldl step (mkClient New []) ops.

(** One of the calls of [Alloc] in [ops], made from [c] on, returns [r]. *)
Fixpoint handsOut (r : Reference) (c : client) (ops : list op) : bool :=
  match ops with
  | [] => false
  | o :: ops' =>
      match o, Alloc (c_store c) with
      | OpAlloc, (Ret (r', _), _) => bool_decide (r' = r)
      | _, _ => false
      end || handsOut r (step c o) ops'
  end.

(** [n] calls in a row. *)
Fixpoint allocMany (n : nat) (s : Store) : list (outcome (Reference * Ptr)) * Store :=
  match n with
  | 0%nat => ([], s)
  | S n' =>
      let '(o, s1) := Alloc s in
      let '(os, s2) := allocMany n' s1 in
      (o :: os, s2)
  end.

Fixpoint freeMany (rs : list Reference) (s : Store) : list (outcome unit) * Store :=
  match rs with
  | [] => ([], s)
  | r :: rs' =>
      let '(o, s1) := Free r s in
      let '(os, s2) := freeMany rs' s1 in
      (o :: os, s2)
  end.

(** The [nextFree] field of the metadata of the slot of [r]. *)
Definition nf (s : Store) (r : Reference) : option Reference :=
  nextFree <$> get2 (s_meta s) (slotOf r).

(** ** The store the calls leave behind

    The writes of each call, collected; the lemmas [Free_eq], [Get_eq],
    [allocFromOffset_eq], [allocFromFree_eq] and [Alloc_eq] show that the
    calls above compute exactly these. *)

Definition freed (r : Reference) (s : Store) : Store :=
  set_rootFree r
    (set_meta
       (set2 (s_meta s) (slotOf r)
          (mkMeta (if IsNil (rootFree s) then r else rootFree s)))
       (set_frees (wrapInt (frees s + 1)) s)).

Definition bumpRef (s : Store) : Reference :=
  mkRef (wrap32 (Z.of_nat (length (objects s)))) (wrap32 (s_offset s + 1)).

Definition bumped (s : Store) : Store :=
  let s1 := set_offset (wrap32 (s_offset s + 1)) s in
  if s_offset s1 =? chunkSize s1 then
    set_offset 0
      (set_objects (objects s1 ++ [replicate (Z.to_nat (chunkSize s1)) zeroO])
         (set_meta (s_meta s1 ++ [replicate (Z.to_nat (chunkSize s1)) zeroMeta]) s1))
  else s1.

Definition popped (next : Reference) (s : Store) : Store :=
  set_rootFree (if ref_eqb next (rootFree s) then nilRef else next)
    (set_meta (set2 (s_meta s) (slotOf (rootFree s)) (mkMeta nilRef)) s).

Definition counting (s : Store) : Store :=
  set_allocs (wrapInt (allocs s + 1)) s.

Definition reusing (s : Store) : Store :=
  set_reused (wrapInt (reused s + 1)) s.

(** [ceil (a / b)] for a positive [b]. *)
Definition ceilDiv (a b : Z) : Z := (a + b - 1) / b.

(** ** Predicates on stores and clients *)

Definition nchunks (s : Store) : Z := Z.of_nat (length (objects s)).

(** [r] names a slot of one of the chunks. *)
Definition inBounds (s : Store) (r : Reference) : Prop :=
  1 <= chunk r <= nchunks s /\ 1 <= offset r <= objectChunkSize.

Global Instance inBounds_dec (s : Store) (r : Reference) : Decision (inBounds s r).
Proof. unfold inBounds. apply _. Defined.

(** [r] names a slot the offset counter has passed. *)
Definition allocated (s : Store) (r : Reference) : Prop :=
  1 <= chunk r /\ 1 <= offset r <= objectChunkSize /\
  (chunk r < nchunks s \/ (chunk r = nchunks s /\ offset r <= s_offset s)).

(** [r] is allocated and not free. *)
Definition live (s : Store) (r : Reference) : Prop :=
  allocated s r /\ nf s r = Some nilRef.

(** The slots of [l] are linked in this order through [nextFree], the last
    one to itself. *)
Fixpoint links (s : Store) (l : list Reference) : Prop :=
  match l with
  | [] => True
  | r :: l' => nf s r = Some (hd r l') /\ links s l'
  end.

Record freeList (s : Store) (l : list Reference) : Prop := mkFreeList {
  fl_root : rootFree s = hd nilRef l;
  fl_links : links s l;
  fl_nodup : NoDup l;
  fl_alloc : Forall (allocated s) l;
  fl_marks : forall r x, inBounds s r -> nf s r = Some x -> IsNil x = false -> r ∈ l
}.

(** The counters after at most [n] calls. *)
Record counted (n : Z) (s : Store) : Prop := mkCounted {
  ct_cs : chunkSize s = objectChunkSize;
  ct_off : 0 <= s_offset s < objectChunkSize;
  ct_raw : (nchunks s - 1) * objectChunkSize + s_offset s = allocs s - reused s;
  ct_reused : 0 <= reused s <= allocs s;
  ct_allocs : allocs s <= n;
  ct_frees : 0 <= frees s <= n
}.

Definition shaped {A : Type} (ll : list (list A)) : Prop :=
  Forall (fun l => length l = Z.to_nat objectChunkSize) ll.

(** A program that made fewer calls than this has not wrapped a counter
    or the [uint32] number of a chunk. *)
Definition opsBound : Z := 2 ^ 32.

(** The two slices of slices have the same shape. *)
Record sized (s : Store) : Prop := mkSized {
  sz_cs : chunkSize s = objectChunkSize;
  sz_off : 0 <= s_offset s < objectChunkSize;
  sz_chunks : 1 <= nchunks s < 2 ^ 32;
  sz_len : length (s_meta s) = length (objects s);
  sz_meta : shaped (s_meta s);
  sz_objs : shaped (objects s)
}.

Record Inv (n : Z) (s : Store) : Prop := mkInv {
  inv_bound : n < opsBound;
  inv_counted : counted n s;
  inv_sized : sized s;
  inv_free : exists l, freeList s l
}.

(** What the client holds: references to slots the offset counter has
    passed, each with the pointer to the object of its slot. *)
Record CInv (n : Z) (c : client) : Prop := mkCInv {
  ci_store : Inv n (c_store c);
  ci_refs : Forall (fun rp => allocated (c_store c) rp.1 /\ rp.2 = slotOf rp.1) (c_refs c)
}.

(** The metadata of the slot of [r] says that the slot is free. *)
Definition marked (s : Store) (r : Reference) : Prop :=
  exists x, nf s r = Some x /\ IsNil x = false.


(** The reference the offset counter hands out for slot number [i]. *)
Definition nthRef (i : nat) : Reference :=
  mkRef (Z.of_nat i / objectChunkSize + 1) (Z.of_nat i mod objectChunkSize + 1).

(** A reference whose fields are in the range of the slots. *)
Definition ranged (r : Reference) : Prop :=
  1 <= chunk r <= 2 ^ 32 /\ 1 <= offset r <= 2 ^ 32.

End Store.

Arguments Store O : clear implicits.
Arguments M O A : clear implicits.
Arguments op O : clear implicits.
Arguments client O : clear implicits.

(** ** Helpers of the tests *)

(** Go's conversion [byte(value)] of an [int]: the low 8 bits. *)
Definition byteOf (value : Z) : Z := value mod 2 ^ 8.

(** [for i := range field { field[i] = byte(value) }], on the slice in place. *)
Definition writeToField (field : list Z) (value : Z) : list Z :=
  foldl (fun f i => <[i := byteOf value]> f) field (seq 0 (length field)).

(** [make([]byte, size)] panics for a negative [size]. *)
Definition generateField (size value : Z) : option (list Z) :=
  if size <? 0 then None
  else Some (writeToField (replicate (Z.to_nat size) 0) value).

(** ** Programs of the tests *)

Definition refA : Reference := mkRef 1 1.
Definition refB : Reference := mkRef 1 2.
Definition refC : Reference := mkRef 1 3.

(** Allocate A, B and C, free B, allocate D. *)
Definition freeAndReuse : list (op Z) :=
  [OpAlloc; OpAlloc; OpAlloc; OpFree (Issued 1); OpAlloc].

End ObjectStore.

(** ** The reference of the pointerstore package

    The sources hold the tests of this package ([TestIsNil],
    [TestGenerationDoesNotAppearInOtherFields], [TestRealloc], ...) and not
    the package itself.  The tests fix the names and the signatures; what the
    operations do is taken from the specification. *)

Module PointerStore.

(** Modelled from the spec: the type [RefPointer] is missing.  "A Reference
    encodes three fields into a compact, non-traceable value: data_ptr,
    meta_ptr, gen: 8 bits"; "the generation is hidden in the top 8 bits of
    one of the address words (conventionally data_ptr)".  Two 64 bit words. *)
Record RefPointer : Type := mkRefPointer { dataAddress : Z; metaAddress : Z }.

Definition genShift : Z := 56.

Definition genMask : Z := Z.shiftl 255 genShift.

Definition pointerMask : Z := Z.lxor (Z.ones 64) genMask.

Definition wrap8 (x : Z) : Z := x mod 2 ^ 8.

Definition uint8 (g : Z) : Prop := 0 <= g < 2 ^ 8.

(** Modelled from the spec: the metadata record is missing.  "next_free:
    reference to the next free slot (or nil); gen: current generation". *)
Record metadata : Type := mkMetadata { nextFree : RefPointer; gen : Z }.

Definition zeroMetadata : metadata := mkMetadata (mkRefPointer 0 0) 0.

(** The metadata region, by address; "the memory is zero-initialised". *)
Definition memory : Type := gmap Z metadata.

Definition metadataAt (mem : memory) (a : Z) : metadata :=
  default zeroMetadata (mem !! a).

Inductive fault : Type :=
| NilConstruction
| UseAfterFree.

Inductive result (A : Type) : Type :=
| Ok (a : A)
| Fail (f : fault).
Arguments Ok {A} a.
Arguments Fail {A} f.

(** Modelled from the spec: [IsNil] is missing.  "is_nil(): true iff all
    fields are zero". *)
Definition IsNil (r : RefPointer) : bool :=
  (dataAddress r =? 0) && (metaAddress r =? 0).

(** Modelled from the spec: [NewReference] is missing.  "Constructor
    new(object_addr, meta_addr) fails with NilConstruction if either address
    is zero"; [TestIsNotNil]: "Generation of a new Reference is always 0". *)
Definition NewReference (pAddress pMetadata : Z) : result RefPointer :=
  if (pAddress =? 0) || (pMetadata =? 0) then Fail NilConstruction
  else Ok (mkRefPointer (Z.land pAddress pointerMask) pMetadata).

(** Modelled from the spec: [Gen] is missing.  "gen(): returns the 8-bit
    tag", kept in the top 8 bits of the data word. *)
Definition Gen (r : RefPointer) : Z :=
  Z.shiftr (Z.land (dataAddress r) genMask) genShift.

(** Modelled from the spec: [setGen] is missing.  It stores an 8 bit tag in
    the top 8 bits of the data word and leaves the other bits. *)
Definition setGen (g : Z) (r : RefPointer) : RefPointer :=
  mkRefPointer
    (Z.lor (Z.land (dataAddress r) pointerMask) (Z.shiftl g genShift))
    (metaAddress r).

(** Modelled from the spec: [metadata()] is missing; the test writes
    [metadata.gen] through the pointer it returns. *)
Definition metadataOf (r : RefPointer) (mem : memory) : metadata :=
  metadataAt mem (metaAddress r).

Definition setMetadataGen (g : Z) (r : RefPointer) (mem : memory) : memory :=
  <[metaAddress r := mkMetadata (nextFree (metadataOf r mem)) g]> mem.

(** "UseAfterFree: dereferencing when r.gen != meta.gen, or metadata
    indicates freed". *)
Definition stale (r : RefPointer) (mem : memory) : bool :=
  negb (IsNil (nextFree (metadataOf r mem))) ||
  negb (gen (metadataOf r mem) =? Gen r).

(** Modelled from the spec: [DataPtr] is missing.  "data_ptr() / meta_ptr():
    returns the stripped address; fails with UseAfterFree if the stored gen
    does not equal the metadata's current gen"; "public accessors MUST mask
    those bits before returning the address". *)
Definition DataPtr (r : RefPointer) (mem : memory) : result Z :=
  if stale r mem then Fail UseAfterFree
  else Ok (Z.land (dataAddress r) pointerMask).

(** Modelled from the spec: [metadataPtr] is missing; the metadata word
    holds no tag. *)
Definition metadataPtr (r : RefPointer) (mem : memory) : result Z :=
  if stale r mem then Fail UseAfterFree
  else Ok (metaAddress r).

(** Modelled from the spec: [Realloc] is missing.  "realloc(): returns a new
    Reference to the same slot with the metadata's generation bumped; the
    old Reference becomes invalid"; the generation counts "modulo 256". *)
Definition Realloc (r : RefPointer) (mem : memory) : RefPointer * memory :=
  let g := wrap8 (gen (metadataOf r mem) + 1) in
  (setGen g r, setMetadataGen g r mem).

End PointerStore.

Import ObjectStore.

(** * The calls, as equations *)

Section Equations.

Context {O : Type} (zeroO : O).
Implicit Types (s : Store O) (r : Reference).

Lemma Free_eq r s :
  Free r s =
  match nf s r with
  | None => (Panic IndexOutOfRange, s)
  | Some x => if IsNil x then (Ret tt, freed r s) else (Panic (FreeFreed r), s)
  end.
Proof.
  unfold Free, nf, bind, getMeta, readMeta, gets.
  destruct (get2 (s_meta s) (slotOf r)) as [m|] eqn:E; simpl; [|done].
  rewrite E; simpl.
  destruct (IsNil (nextFree m)); simpl; [|done].
  unfold freed. by destruct (IsNil (rootFree s)).
Qed.

Lemma Get_eq r s :
  Get r s =
  match nf s r with
  | None => (Panic IndexOutOfRange, s)
  | Some x =>
      if IsNil x then
        match get2 (objects s) (slotOf r) with
        | Some _ => (Ret (slotOf r), s)
        | None => (Panic IndexOutOfRange, s)
        end
      else (Panic (GetFreed r), s)
  end.
Proof.
  unfold Get, nf, bind, getMeta, readMeta, gets.
  destruct (get2 (s_meta s) (slotOf r)) as [m|] eqn:E; simpl; [|done].
  rewrite E; simpl.
  by destruct (IsNil (nextFree m)).
Qed.

Lemma allocFromOffset_eq s :
  allocFromOffset zeroO s =
  match get2 (objects (bumped zeroO s)) (slotOf (bumpRef s)) with
  | Some _ => (Ret (bumpRef s, slotOf (bumpRef s)), bumped zeroO s)
  | None => (Panic IndexOutOfRange, bumped zeroO s)
  end.
Proof.
  unfold allocFromOffset, bumped, bumpRef, bind, gets, modify, getObject, ret; simpl.
  destruct (wrap32 (s_offset s + 1) =? chunkSize s); simpl;
    match goal with |- context [get2 ?a ?b] => by destruct (get2 a b) end.
Qed.

Lemma allocFromFree_eq s :
  allocFromFree s =
  match nf s (rootFree s) with
  | None => (Panic IndexOutOfRange, s)
  | Some x =>
      match get2 (objects s) (slotOf (rootFree s)) with
      | Some _ => (Ret (rootFree s, slotOf (rootFree s)), popped x s)
      | None => (Panic IndexOutOfRange, popped x s)
      end
  end.
Proof.
  unfold allocFromFree, nf, popped, bind, gets, modify, getMeta, getObject,
    readMeta, writeMeta, ret; simpl.
  destruct (get2 (s_meta s) (slotOf (rootFree s))) as [m|] eqn:E; simpl; [|done].
  rewrite E; simpl.
  destruct (ref_eqb (nextFree m) (rootFree s)); simpl;
    by destruct (get2 (objects s) (slotOf (rootFree s))).
Qed.

Lemma Alloc_eq s :
  Alloc zeroO s =
  if IsNil (rootFree s) then allocFromOffset zeroO (counting s)
  else allocFromFree (reusing (counting s)).
Proof.
  unfold Alloc, bind, gets, modify; simpl.
  by destruct (IsNil (rootFree s)).
Qed.

End Equations.

(** * Machine arithmetic *)

Lemma wrap32_small x : 0 <= x < 2 ^ 32 -> wrap32 x = x.
Proof. intros. unfold wrap32. by apply Z.mod_small. Qed.

Lemma wrapInt_small x : - 2 ^ 63 <= x < 2 ^ 63 -> wrapInt x = x.
Proof. intros. unfold wrapInt. rewrite Z.mod_small; lia. Qed.

Lemma wrap32_range x : 0 <= wrap32 x < 2 ^ 32.
Proof. unfold wrap32. apply Z.mod_pos_bound. lia. Qed.

(** * Two-level slices *)

Section Slices.

Context {A : Type}.
Implicit Types (ll : list (list A)) (p q : Ptr).

Lemma length_set2 ll p v : length (set2 ll p v) = length ll.
Proof. unfold set2. apply length_alter. Qed.

Lemma get2_set2_eq ll p v : is_Some (get2 ll p) -> get2 (set2 ll p v) p = Some v.
Proof.
  unfold get2, set2. intros [x Hx].
  destruct (ll !! p.1) as [l|] eqn:E; [|done].
  rewrite list_lookup_alter_eq, E. simpl.
  apply list_lookup_insert_eq. by eapply lookup_lt_Some.
Qed.

Lemma get2_set2_ne ll p q v : p ≠ q -> get2 (set2 ll p v) q = get2 ll q.
Proof.
  unfold get2, set2. intros Hne.
  destruct (decide (p.1 = q.1)) as [e|n].
  - rewrite <- e, list_lookup_alter_eq.
    destruct (ll !! p.1) as [l|]; [|done]. simpl.
    apply list_lookup_insert_ne. intros e2. apply Hne.
    destruct p, q; simpl in *; congruence.
  - by rewrite list_lookup_alter_ne.
Qed.

Lemma get2_set2_is_Some ll p q v : is_Some (get2 (set2 ll p v) q) <-> is_Some (get2 ll q).
Proof.
  destruct (decide (p = q)) as [->|n].
  - split; intros H.
    + unfold get2, set2 in *.
      rewrite list_lookup_alter_eq in H.
      destruct (ll !! q.1) as [l|]; simpl in *; [|by destruct H].
      apply lookup_lt_is_Some. apply lookup_lt_is_Some in H.
      by rewrite length_insert in H.
    + rewrite get2_set2_eq; eauto.
  - by rewrite get2_set2_ne.
Qed.

Lemma shaped_set2 ll p v : shaped ll -> shaped (set2 ll p v).
Proof.
  unfold shaped, set2. intros H.
  apply Forall_alter; [done|]. intros l _ Hl. by rewrite length_insert.
Qed.

Lemma shaped_snoc ll (x : A) :
  shaped ll -> shaped (ll ++ [replicate (Z.to_nat objectChunkSize) x]).
Proof.
  unfold shaped. intros H. apply Forall_app. split; [done|].
  constructor; [|constructor]. apply length_replicate.
Qed.

Lemma get2_shaped ll p :
  shaped ll ->
  is_Some (get2 ll p) <-> (p.1 < length ll)%nat /\ (p.2 < Z.to_nat objectChunkSize)%nat.
Proof.
  unfold shaped, get2. intros H. split.
  - intros Hs. destruct (ll !! p.1) as [l|] eqn:E; [|by destruct Hs].
    split; [by eapply lookup_lt_Some|].
    rewrite <- (Forall_lookup_1 _ _ _ _ H E). by apply lookup_lt_is_Some.
  - intros [H1 H2]. apply lookup_lt_is_Some in H1 as [l E]. rewrite E.
    apply lookup_lt_is_Some. by rewrite (Forall_lookup_1 _ _ _ _ H E).
Qed.

Lemma get2_app_l ll ll' p : is_Some (get2 ll p) -> get2 (ll ++ ll') p = get2 ll p.
Proof.
  unfold get2. intros H.
  destruct (ll !! p.1) as [l|] eqn:E; [|by destruct H].
  by rewrite (lookup_app_l_Some _ _ _ _ E).
Qed.

Lemma get2_snoc_replicate ll (x : A) n p :
  (p.1 = length ll)%nat -> (p.2 < n)%nat ->
  get2 (ll ++ [replicate n x]) p = Some x.
Proof.
  unfold get2. intros H1 H2.
  rewrite lookup_app_r by lia. rewrite H1, Nat.sub_diag. simpl.
  by apply lookup_replicate_2.
Qed.

Lemma get2_single_replicate (x y : A) n p : get2 [replicate n x] p = Some y -> y = x.
Proof.
  unfold get2. destruct (p.1) as [|i]; simpl; [|done].
  intros E. by apply lookup_replicate in E as [-> _].
Qed.

End Slices.

(** * The counters *)

Section Counters.

Context {O : Type} (zeroO : O).
Implicit Types (s : Store O) (r : Reference) (c : client O).

Local Ltac counters :=
  constructor; unfold nchunks, objectChunkSize in *; simpl in *;
  rewrite ?wrapInt_small by lia; rewrite ?length_app; simpl; auto; lia.

Lemma counted_mono n m s : n <= m -> counted n s -> counted m s.
Proof. intros Hle [? ? ? ? ? ?]. constructor; auto; lia. Qed.

Lemma counted_New : counted 0 (New zeroO).
Proof. constructor; vm_compute; try done; split; congruence. Qed.

Lemma counted_freed n r s :
  n + 1 < 2 ^ 63 -> counted n s -> counted (n + 1) (freed r s).
Proof.
  intros Hn [? ? ? ? ? ?]. destruct s. counters.
Qed.

Lemma counted_popped n x s : counted n s -> counted n (popped x s).
Proof. intros [? ? ? ? ? ?]. by constructor. Qed.

Lemma counted_reusing n s :
  n + 1 < 2 ^ 63 -> counted n s -> counted (n + 1) (reusing (counting s)).
Proof.
  intros Hn [? ? ? ? ? ?]. destruct s. counters.
Qed.

Lemma bumped_offset s :
  chunkSize s = objectChunkSize -> 0 <= s_offset s < objectChunkSize ->
  (s_offset s + 1 < objectChunkSize /\
     bumped zeroO s = set_offset (s_offset s + 1) s) \/
  (s_offset s + 1 = objectChunkSize /\
     bumped zeroO s =
       set_offset 0
         (set_objects (objects s ++ [replicate (Z.to_nat (chunkSize s)) zeroO])
            (set_meta (s_meta s ++ [replicate (Z.to_nat (chunkSize s)) zeroMeta])
               s))).
Proof.
  unfold objectChunkSize. intros Hcs Hoff. unfold bumped. simpl.
  rewrite wrap32_small by lia.
  destruct (Z.eqb_spec (s_offset s + 1) (chunkSize s)); [right|left]; split; auto; lia.
Qed.

Lemma counted_bumped n s :
  n + 1 < 2 ^ 63 -> counted n s -> counted (n + 1) (bumped zeroO (counting s)).
Proof.
  intros Hn [Hcs Hoff Hraw Hre Hal Hfr].
  destruct (bumped_offset (counting s) Hcs Hoff) as [[Hlt ->]|[Heq ->]];
    destruct s; counters.
Qed.

Lemma Get_store r s : (Get r s).2 = s.
Proof.
  rewrite Get_eq. destruct (nf s r) as [x|]; [|done].
  destruct (IsNil x); [|done].
  by destruct (get2 (objects s) (slotOf r)).
Qed.

Lemma Free_store r s : (Free r s).2 = s \/ (Free r s = (Ret tt, freed r s)).
Proof.
  rewrite Free_eq. destruct (nf s r) as [x|]; [|by left].
  destruct (IsNil x); [by right|by left].
Qed.

Lemma Alloc_store s :
  (Alloc zeroO s).2 = bumped zeroO (counting s) \/
  (Alloc zeroO s).2 = reusing (counting s) \/
  exists x, (Alloc zeroO s).2 = popped x (reusing (counting s)).
Proof.
  rewrite Alloc_eq. destruct (IsNil (rootFree s)).
  - left. rewrite allocFromOffset_eq.
    match goal with |- context [get2 ?a ?b] => by destruct (get2 a b) end.
  - right. rewrite allocFromFree_eq.
    destruct (nf _ _) as [x|]; [|by left]. right. exists x.
    match goal with |- context [get2 ?a ?b] => by destruct (get2 a b) end.
Qed.

Lemma counted_Alloc n s :
  n + 1 < 2 ^ 63 -> counted n s -> counted (n + 1) (Alloc zeroO s).2.
Proof.
  intros Hn Hc. destruct (Alloc_store s) as [->|[->|[x ->]]].
  - by apply counted_bumped.
  - by apply counted_reusing.
  - by apply counted_popped, counted_reusing.
Qed.

Lemma counted_Free n r s :
  n + 1 < 2 ^ 63 -> counted n s -> counted (n + 1) (Free r s).2.
Proof.
  intros Hn Hc. destruct (Free_store r s) as [->| ->].
  - eapply counted_mono; [|done]. lia.
  - by apply counted_freed.
Qed.

Lemma counted_store n s p v : counted n s -> counted n (store s p v).
Proof.
  intros [? ? ? ? ? ?]. constructor; auto.
  unfold nchunks, store in *; simpl. by rewrite length_set2.
Qed.

Lemma counted_step n c o :
  n + 1 < 2 ^ 63 -> counted n (c_store c) -> counted (n + 1) (c_store (step zeroO c o)).
Proof.
  intros Hn Hc. assert (Hm : counted (n + 1) (c_store c)).
  { eapply counted_mono; [|done]. lia. }
  destruct o as [|h|h|i v]; simpl.
  - pose proof (counted_Alloc n _ Hn Hc) as H.
    destruct (Alloc zeroO (c_store c)) as [[rp|e] s']; done.
  - destruct (handleRef _ h); [|done]. simpl. by apply counted_Free.
  - destruct (handleRef _ h); [|done]. simpl. by rewrite Get_store.
  - destruct (c_refs c !! i) as [[r p]|]; [|done]. simpl. by apply counted_store.
Qed.

Lemma run_snoc ops o : run zeroO (ops ++ [o]) = step zeroO (run zeroO ops) o.
Proof. unfold run. by rewrite foldl_snoc. Qed.

Lemma counted_run ops :
  Z.of_nat (length ops) < 2 ^ 63 ->
  counted (Z.of_nat (length ops)) (c_store (run zeroO ops)).
Proof.
  induction ops as [|o ops IH] using rev_ind; intros Hn.
  - apply counted_New.
  - rewrite run_snoc, length_app, Nat2Z.inj_add. simpl length.
    rewrite length_app in Hn. simpl in Hn.
    apply counted_step; [lia|]. apply IH. lia.
Qed.

End Counters.

(** * Slots and references *)

Section Geometry.

Context {O : Type} (zeroO : O).
Implicit Types (s : Store O) (r : Reference) (c : client O).

Lemma slotOf_ranged r :
  ranged r -> slotOf r = (Z.to_nat (chunk r - 1), Z.to_nat (offset r - 1)).
Proof.
  intros [Hc Ho]. unfold slotOf. by rewrite !wrap32_small by lia.
Qed.

Lemma slotOf_inj r1 r2 : ranged r1 -> ranged r2 -> slotOf r1 = slotOf r2 -> r1 = r2.
Proof.
  intros H1 H2. rewrite !slotOf_ranged by done.
  destruct H1, H2, r1 as [c1 o1], r2 as [c2 o2]; simpl in *.
  intros [= Hc Ho]. apply Z2Nat.inj in Hc, Ho; try lia. f_equal; lia.
Qed.

Lemma IsNil_false r : 1 <= chunk r -> IsNil r = false.
Proof. unfold IsNil. intros H. destruct (Z.eqb_spec (chunk r) 0); [lia|done]. Qed.

Lemma IsNil_true r : IsNil r = true <-> r = nilRef.
Proof.
  unfold IsNil, nilRef. destruct r as [c o]; simpl. rewrite andb_true_iff, !Z.eqb_eq.
  split; [intros [-> ->]; done | intros [= -> ->]; done].
Qed.

Lemma ref_eqb_eq a b : ref_eqb a b = true <-> a = b.
Proof.
  unfold ref_eqb. destruct a as [c o], b as [c' o']; simpl.
  rewrite andb_true_iff, !Z.eqb_eq.
  split; [intros [-> ->]; done | intros [= -> ->]; done].
Qed.

Lemma ref_eqb_ne a b : a ≠ b -> ref_eqb a b = false.
Proof.
  intros H. destruct (ref_eqb a b) eqn:E; [|done]. by apply ref_eqb_eq in E.
Qed.

Lemma sized_of_counted n s :
  n < opsBound -> counted n s ->
  length (s_meta s) = length (objects s) ->
  shaped (s_meta s) -> shaped (objects s) -> sized s.
Proof.
  intros Hb [? ? ? ? ? ?] ? ? ?. constructor; auto.
  unfold opsBound, objectChunkSize in *. lia.
Qed.

Lemma inBounds_ranged s r : sized s -> inBounds s r -> ranged r.
Proof.
  intros HI [Hc Ho]. pose proof (sz_chunks _ HI).
  unfold ranged, objectChunkSize in *. lia.
Qed.

Lemma allocated_inBounds s r : allocated s r -> inBounds s r.
Proof. unfold allocated, inBounds. lia. Qed.

Lemma inBounds_slot s r :
  sized s -> inBounds s r ->
  ((slotOf r).1 < length (objects s))%nat /\
  ((slotOf r).2 < Z.to_nat objectChunkSize)%nat.
Proof.
  intros HI Hb. rewrite slotOf_ranged by by eapply inBounds_ranged.
  destruct Hb as [Hc Ho]. unfold nchunks, objectChunkSize in *. simpl. lia.
Qed.

Lemma inBounds_meta_cell s r :
  sized s -> inBounds s r -> is_Some (get2 (s_meta s) (slotOf r)).
Proof.
  intros HI Hb. apply get2_shaped; [apply HI|].
  rewrite (sz_len _ HI). by apply inBounds_slot.
Qed.

Lemma inBounds_meta s r : sized s -> inBounds s r -> is_Some (nf s r).
Proof.
  intros HI Hb. unfold nf. apply fmap_is_Some. by apply inBounds_meta_cell.
Qed.

Lemma inBounds_object s r :
  sized s -> inBounds s r -> is_Some (get2 (objects s) (slotOf r)).
Proof.
  intros HI Hb. apply get2_shaped; [apply HI|]. by apply inBounds_slot.
Qed.

End Geometry.

(** * The free list *)

Section FreeList.

Context {O : Type} (zeroO : O).
Implicit Types (s : Store O) (r : Reference) (l : list Reference).

Lemma sized_ext s s' :
  chunkSize s' = chunkSize s -> s_offset s' = s_offset s ->
  length (objects s') = length (objects s) ->
  length (s_meta s') = length (s_meta s) ->
  shaped (s_meta s') -> shaped (objects s') ->
  sized s -> sized s'.
Proof.
  intros Hcs Hoff Hlo Hlm Hm Ho [? ? ? ? ? ?].
  constructor; unfold nchunks in *; auto; congruence.
Qed.

Lemma sized_freed r s : sized s -> sized (freed r s).
Proof.
  intros H. eapply sized_ext; [..|exact H]; simpl; auto; try apply H.
  - by rewrite length_set2.
  - apply shaped_set2, H.
Qed.

Lemma sized_popped x s : sized s -> sized (popped x s).
Proof.
  intros H. eapply sized_ext; [..|exact H]; simpl; auto; try apply H.
  - by rewrite length_set2.
  - apply shaped_set2, H.
Qed.

Lemma sized_store s p v : sized s -> sized (store s p v).
Proof.
  intros H. eapply sized_ext; [..|exact H]; simpl; auto; try apply H.
  - by rewrite length_set2.
  - apply shaped_set2, H.
Qed.

Lemma sized_counting s : sized s -> sized (counting s).
Proof. intros [? ? ? ? ? ?]. by constructor. Qed.

Lemma sized_reusing s : sized s -> sized (reusing s).
Proof. intros [? ? ? ? ? ?]. by constructor. Qed.

Lemma sized_bumped s :
  sized s -> nchunks s + 1 < 2 ^ 32 -> sized (bumped zeroO s).
Proof.
  intros H Hn. pose proof H as [Hcs Hoff Hch Hlen Hm Ho].
  destruct (bumped_offset zeroO s Hcs Hoff) as [[Hlt ->]|[Heq ->]].
  - constructor; simpl; auto. lia.
  - constructor; unfold nchunks in *; simpl; auto.
    + unfold objectChunkSize. lia.
    + rewrite length_app. simpl. lia.
    + rewrite !length_app. simpl. lia.
    + rewrite Hcs. by apply shaped_snoc.
    + rewrite Hcs. by apply shaped_snoc.
Qed.

(** ** What the calls do to the [nextFree] fields *)

Lemma nf_freed_eq r s :
  sized s -> inBounds s r ->
  nf (freed r s) r = Some (if IsNil (rootFree s) then r else rootFree s).
Proof.
  intros Hs Hb. unfold nf, freed; simpl.
  rewrite get2_set2_eq; [done|]. by apply inBounds_meta_cell.
Qed.

Lemma nf_freed_ne r r' s :
  sized s -> inBounds s r -> inBounds s r' -> r ≠ r' ->
  nf (freed r s) r' = nf s r'.
Proof.
  intros Hs Hb Hb' Hne. unfold nf, freed; simpl.
  rewrite get2_set2_ne; [done|]. intros E. apply Hne.
  eapply slotOf_inj; eauto using inBounds_ranged.
Qed.

Lemma nf_popped_eq x s :
  sized s -> inBounds s (rootFree s) -> nf (popped x s) (rootFree s) = Some nilRef.
Proof.
  intros Hs Hb. unfold nf, popped; simpl.
  rewrite get2_set2_eq; [done|]. by apply inBounds_meta_cell.
Qed.

Lemma nf_popped_ne x r' s :
  sized s -> inBounds s (rootFree s) -> inBounds s r' -> rootFree s ≠ r' ->
  nf (popped x s) r' = nf s r'.
Proof.
  intros Hs Hb Hb' Hne. unfold nf, popped; simpl.
  rewrite get2_set2_ne; [done|]. intros E. apply Hne.
  eapply slotOf_inj; eauto using inBounds_ranged.
Qed.

Lemma nf_bumped_old r s :
  sized s -> inBounds s r -> nf (bumped zeroO s) r = nf s r.
Proof.
  intros Hs Hb. pose proof Hs as [Hcs Hoff Hch Hlen Hm Ho].
  destruct (bumped_offset zeroO s Hcs Hoff) as [[Hlt ->]|[Heq ->]]; [done|].
  unfold nf; simpl. rewrite get2_app_l; [done|]. by apply inBounds_meta_cell.
Qed.

Lemma nf_bumped_new r s :
  sized s -> nchunks s + 1 < 2 ^ 32 ->
  inBounds (bumped zeroO s) r -> ¬ inBounds s r ->
  nf (bumped zeroO s) r = Some nilRef.
Proof.
  intros Hs Hn Hb Hnb. pose proof Hs as [Hcs Hoff Hch Hlen Hm Ho].
  destruct (bumped_offset zeroO s Hcs Hoff) as [[Hlt E]|[Heq E]]; rewrite E in *.
  - by destruct Hnb.
  - unfold nf; simpl.
    assert (Hc : chunk r = nchunks s + 1).
    { unfold inBounds, nchunks in *; simpl in *.
      rewrite length_app in Hb. simpl in Hb. lia. }
    assert (Hr : ranged r).
    { destruct Hb as [_ Hb]. unfold ranged, objectChunkSize in *. lia. }
    rewrite get2_snoc_replicate; [done|..]; rewrite slotOf_ranged by done; simpl.
    + unfold nchunks in *. lia.
    + destruct Hb as [_ Hb]. rewrite Hcs. unfold objectChunkSize in *. lia.
Qed.

(** ** The list *)

Lemma links_frame s s' l :
  (forall r, r ∈ l -> nf s' r = nf s r) -> links s l -> links s' l.
Proof.
  induction l as [|r l IH]; simpl; [done|]. intros Hf [H1 H2]. split.
  - rewrite Hf; [done|]. by left.
  - apply IH; [|done]. intros r' Hr'. apply Hf. by right.
Qed.

Lemma hd_elem r l : hd r l = r \/ hd r l ∈ l.
Proof. destruct l; [by left|right; by left]. Qed.

Lemma links_marked s l r :
  links s l -> Forall (allocated s) l -> r ∈ l ->
  exists x, nf s r = Some x /\ IsNil x = false.
Proof.
  induction l as [|a l IH]; simpl; intros Hl Ha Hr; [by apply elem_of_nil in Hr|].
  destruct Hl as [H1 H2]. apply Forall_cons in Ha as [Ha Hal].
  apply elem_of_cons in Hr as [->|Hr]; [|by apply IH].
  exists (hd a l). split; [done|]. apply IsNil_false.
  destruct (hd_elem a l) as [->|Hin]; [apply Ha|].
  rewrite Forall_forall in Hal. apply (Hal _ Hin).
Qed.

Lemma freeList_nil_root s l : freeList s l -> IsNil (rootFree s) = true -> l = [].
Proof.
  intros [Hroot _ _ Ha _] Hnil. destruct l as [|a l]; [done|].
  apply Forall_cons in Ha as [Ha _]. simpl in Hroot. rewrite Hroot in Hnil.
  rewrite IsNil_false in Hnil; [done|apply Ha].
Qed.

Lemma freeList_root_nil s : freeList s [] -> IsNil (rootFree s) = true.
Proof. intros [Hroot _ _ _ _]. simpl in Hroot. by rewrite Hroot. Qed.

Lemma freeList_root_cons s r l : freeList s (r :: l) -> rootFree s = r /\ IsNil r = false.
Proof.
  intros [Hroot _ _ Ha _]. split; [done|].
  apply Forall_cons in Ha as [Ha _]. apply IsNil_false, Ha.
Qed.

Lemma freeList_unique s l l' : freeList s l -> freeList s l' -> l = l'.
Proof.
  intros H. revert l'. pose proof (fl_links _ _ H) as Hl.
  pose proof (fl_nodup _ _ H) as Hnd. pose proof (fl_root _ _ H) as Hroot.
  pose proof (fl_alloc _ _ H) as Ha. clear H.
  assert (G : forall l l' a, links s l -> links s l' -> NoDup l -> NoDup l' ->
            Forall (allocated s) l -> Forall (allocated s) l' ->
            hd a l = hd a l' -> (l = [] <-> l' = []) -> l = l').
  { clear. induction l as [|x l IH]; intros l' a Hl Hl' Hn Hn' Ha Ha' Hhd Hiff.
    - symmetry. by apply Hiff.
    - destruct l' as [|x' l']; [by apply Hiff|]. simpl in Hhd. subst x'.
      f_equal. destruct Hl as [H1 H2], Hl' as [H1' H2'].
      apply NoDup_cons in Hn as [Hx Hn], Hn' as [Hx' Hn'].
      apply Forall_cons in Ha as [_ Ha], Ha' as [_ Ha'].
      rewrite H1 in H1'. injection H1' as Hhd.
      apply (IH l' x); auto.
      destruct l as [|y l], l' as [|y' l']; simpl in *; try done.
      + subst. exfalso. apply Hx'. by left.
      + subst. exfalso. apply Hx. by left. }
  intros l' [Hroot' Hl' Hnd' Ha' _].
  apply (G l l' nilRef); auto; [congruence|].
  split; intros ->; simpl in *.
  - destruct l' as [|a l']; [done|]. apply Forall_cons in Ha' as [Ha' _].
    simpl in Hroot'. rewrite Hroot in Hroot'. subst a.
    destruct Ha' as [Hc _]. simpl in Hc. lia.
  - destruct l as [|a l]; [done|]. apply Forall_cons in Ha as [Ha _].
    simpl in Hroot. rewrite Hroot' in Hroot. subst a.
    destruct Ha as [Hc _]. simpl in Hc. lia.
Qed.

Lemma freeList_ext s s' l :
  rootFree s' = rootFree s -> s_meta s' = s_meta s ->
  length (objects s') = length (objects s) -> s_offset s' = s_offset s ->
  freeList s l -> freeList s' l.
Proof.
  intros Hr Hm Hl Ho [Hroot Hlinks Hnd Ha Hmarks].
  assert (Hnf : forall r, nf s' r = nf s r) by (intros; unfold nf; by rewrite Hm).
  constructor.
  - congruence.
  - eapply links_frame; [|done]. intros; apply Hnf.
  - done.
  - eapply Forall_impl; [done|]. intros r. unfold allocated, nchunks.
    by rewrite Hl, Ho.
  - intros r x Hb Hx Hn. apply (Hmarks r x); [|by rewrite <- Hnf|done].
    unfold inBounds, nchunks in *. by rewrite <- Hl.
Qed.

Lemma freeList_freed s l r :
  sized s -> freeList s l -> allocated s r -> nf s r = Some nilRef ->
  freeList (freed r s) (r :: l).
Proof.
  intros Hs Hfl Hr Hnf. pose proof Hfl as [Hroot Hlinks Hnd Ha Hmarks].
  assert (Hnotin : r ∉ l).
  { intros Hin. destruct (links_marked _ _ _ Hlinks Ha Hin) as (x & Hx & Hn).
    rewrite Hnf in Hx. by injection Hx as <-. }
  assert (Hframe : forall r', inBounds s r' -> r ≠ r' -> nf (freed r s) r' = nf s r').
  { intros r' Hb' Hne. apply nf_freed_ne; auto using allocated_inBounds. }
  constructor.
  - done.
  - split.
    + rewrite nf_freed_eq by auto using allocated_inBounds.
      destruct (IsNil (rootFree s)) eqn:E.
      * by rewrite (freeList_nil_root _ _ Hfl E).
      * destruct l as [|a l]; [by rewrite Hroot in E|]. by rewrite Hroot.
    + eapply links_frame; [|done]. intros r' Hin. apply Hframe.
      * rewrite Forall_forall in Ha. by apply allocated_inBounds, Ha.
      * by intros ->.
  - by apply NoDup_cons.
  - apply Forall_cons. split; [done|]. done.
  - intros r' x Hb Hx Hn. destruct (decide (r = r')) as [->|Hne]; [by left|].
    right. apply (Hmarks r' x); [done| |done]. by rewrite <- Hframe.
Qed.

Lemma freeList_popped s r l :
  sized s -> freeList s (r :: l) -> freeList (popped (hd r l) s) l.
Proof.
  intros Hs Hfl. pose proof Hfl as [Hroot Hlinks Hnd Ha Hmarks].
  simpl in Hroot. destruct Hlinks as [Hnf Hlinks].
  apply NoDup_cons in Hnd as [Hnotin Hnd]. apply Forall_cons in Ha as [Hr Ha].
  assert (Hbr : inBounds s (rootFree s)) by (rewrite Hroot; by apply allocated_inBounds).
  assert (Hframe : forall r', inBounds s r' -> r ≠ r' ->
            nf (popped (hd r l) s) r' = nf s r').
  { intros r' Hb' Hne. apply nf_popped_ne; auto. by rewrite Hroot. }
  constructor.
  - simpl. rewrite Hroot. destruct l as [|a l]; simpl.
    + by rewrite (proj2 (ref_eqb_eq r r) eq_refl).
    + rewrite ref_eqb_ne; [done|]. intros ->. apply Hnotin. by left.
  - eapply links_frame; [|done]. intros r' Hin. apply Hframe.
    + rewrite Forall_forall in Ha. by apply allocated_inBounds, Ha.
    + by intros ->.
  - done.
  - done.
  - intros r' x Hb Hx Hn. destruct (decide (r = r')) as [<-|Hne].
    + rewrite <- Hroot in Hx. rewrite nf_popped_eq in Hx by done.
      injection Hx as <-. done.
    + rewrite Hframe in Hx by done.
      pose proof (Hmarks r' x Hb Hx Hn) as Hin.
      apply elem_of_cons in Hin as [->|Hin]; done.
Qed.

Lemma allocated_bumped s r :
  sized s -> allocated s r -> allocated (bumped zeroO s) r.
Proof.
  intros Hs Hr. pose proof Hs as [Hcs Hoff Hch Hlen Hm Ho].
  destruct (bumped_offset zeroO s Hcs Hoff) as [[Hlt ->]|[Heq ->]];
    unfold allocated, nchunks in *; simpl; rewrite ?length_app; simpl; lia.
Qed.

Lemma inBounds_bumped s r :
  sized s -> inBounds s r -> inBounds (bumped zeroO s) r.
Proof.
  intros Hs Hr. pose proof Hs as [Hcs Hoff Hch Hlen Hm Ho].
  destruct (bumped_offset zeroO s Hcs Hoff) as [[Hlt ->]|[Heq ->]];
    unfold inBounds, nchunks in *; simpl; rewrite ?length_app; simpl; lia.
Qed.

Lemma bumped_rootFree s : sized s -> rootFree (bumped zeroO s) = rootFree s.
Proof.
  intros [Hcs Hoff Hch Hlen Hm Ho].
  by destruct (bumped_offset zeroO s Hcs Hoff) as [[Hlt ->]|[Heq ->]].
Qed.

Lemma freeList_bumped s l :
  sized s -> nchunks s + 1 < 2 ^ 32 ->
  freeList s l -> freeList (bumped zeroO s) l.
Proof.
  intros Hs Hn [Hroot Hlinks Hnd Ha Hmarks]. constructor.
  - by rewrite bumped_rootFree.
  - eapply links_frame; [|done]. intros r Hin. apply nf_bumped_old; [done|].
    rewrite Forall_forall in Ha. by apply allocated_inBounds, Ha.
  - done.
  - eapply Forall_impl; [done|]. intros r. by apply allocated_bumped.
  - intros r x Hb Hx Hnil.
    destruct (decide (inBounds s r)) as [Hin|Hout].
    + apply (Hmarks r x); [done| |done]. by rewrite <- (nf_bumped_old r s).
    + rewrite nf_bumped_new in Hx by done. by injection Hx as <-.
Qed.

(** The slot the offset counter moves onto has never been freed. *)
Lemma bumpRef_fresh s l :
  sized s -> nchunks s + 1 < 2 ^ 32 -> freeList s l ->
  allocated (bumped zeroO s) (bumpRef s) /\
  nf (bumped zeroO s) (bumpRef s) = Some nilRef /\
  is_Some (get2 (objects (bumped zeroO s)) (slotOf (bumpRef s))) /\
  ¬ allocated s (bumpRef s).
Proof.
  intros Hs Hn Hfl. pose proof Hs as [Hcs Hoff Hch Hlen Hm Ho].
  assert (Hc : chunk (bumpRef s) = nchunks s).
  { unfold bumpRef, nchunks in *; simpl. rewrite wrap32_small; lia. }
  assert (Ho' : offset (bumpRef s) = s_offset s + 1).
  { unfold bumpRef; simpl. rewrite wrap32_small; [done|].
    unfold objectChunkSize in *. lia. }
  assert (Hb : inBounds s (bumpRef s)).
  { unfold inBounds. rewrite Hc, Ho'. unfold objectChunkSize in *. lia. }
  assert (Hna : ¬ allocated s (bumpRef s)).
  { unfold allocated. rewrite Hc, Ho'. lia. }
  assert (Hal : allocated (bumped zeroO s) (bumpRef s)).
  { destruct (bumped_offset zeroO s Hcs Hoff) as [[Hlt ->]|[Heq ->]];
      unfold allocated, nchunks in *; rewrite Hc, Ho'; simpl;
      rewrite ?length_app; simpl; unfold objectChunkSize in *; lia. }
  split; [done|]. split; [|split; [|done]].
  - rewrite nf_bumped_old by done.
    destruct (inBounds_meta s _ Hs Hb) as [x Hx]. rewrite Hx. f_equal.
    destruct (IsNil x) eqn:E; [by apply IsNil_true|].
    exfalso. apply Hna. pose proof (fl_alloc _ _ Hfl) as Ha.
    rewrite Forall_forall in Ha. apply Ha. by apply (fl_marks _ _ Hfl _ x).
  - apply inBounds_object; [by apply sized_bumped|].
    by apply allocated_inBounds.
Qed.

End FreeList.

(** * The calls keep the invariant *)

Section Invariant.

Context {O : Type} (zeroO : O).
Implicit Types (s : Store O) (r : Reference) (l : list Reference) (c : client O).

Lemma Inv_mono n m s : n <= m -> m < opsBound -> Inv n s -> Inv m s.
Proof.
  intros Hle Hm [Hb Hc Hs Hf]. constructor; auto. by eapply counted_mono.
Qed.

Lemma Inv_room n s : Inv n s -> n + 1 < opsBound -> nchunks s + 1 < 2 ^ 32.
Proof.
  intros [Hb [? ? ? ? ? ?] Hs Hf] Hn. unfold opsBound, objectChunkSize in *. lia.
Qed.

Lemma bound_63 n : n < opsBound -> n < 2 ^ 63.
Proof. unfold opsBound. lia. Qed.

Lemma Free_live s r :
  nf s r = Some nilRef -> Free r s = (Ret tt, freed r s).
Proof. intros H. by rewrite Free_eq, H. Qed.

Lemma Free_freed s r x :
  nf s r = Some x -> IsNil x = false -> Free r s = (Panic (FreeFreed r), s).
Proof. intros H Hx. by rewrite Free_eq, H, Hx. Qed.

Lemma Get_live s r :
  sized s -> inBounds s r -> nf s r = Some nilRef -> Get r s = (Ret (slotOf r), s).
Proof.
  intros Hs Hb H. rewrite Get_eq, H. simpl.
  by destruct (inBounds_object s r Hs Hb) as [v ->].
Qed.

Lemma Get_freed s r x :
  nf s r = Some x -> IsNil x = false -> Get r s = (Panic (GetFreed r), s).
Proof. intros H Hx. by rewrite Get_eq, H, Hx. Qed.

Lemma Alloc_fresh n s :
  Inv n s -> n + 1 < opsBound -> freeList s [] ->
  Alloc zeroO s = (Ret (bumpRef s, slotOf (bumpRef s)), bumped zeroO (counting s)).
Proof.
  intros HI Hn Hfl. rewrite Alloc_eq, (freeList_root_nil _ Hfl), allocFromOffset_eq.
  assert (Hfl' : freeList (counting s) []) by by eapply freeList_ext; [..|exact Hfl].
  destruct (bumpRef_fresh zeroO (counting s) [])
    as (_ & _ & [v Hv] & _); auto.
  - apply sized_counting, HI.
  - exact (Inv_room n s HI Hn).
  - change (bumpRef (counting s)) with (bumpRef s) in *. by rewrite Hv.
Qed.

Lemma Alloc_reuse n s r l :
  Inv n s -> freeList s (r :: l) ->
  Alloc zeroO s = (Ret (r, slotOf r), popped (hd r l) (reusing (counting s))).
Proof.
  intros HI Hfl. destruct (freeList_root_cons _ _ _ Hfl) as [Hroot Hnil].
  rewrite Alloc_eq, Hroot, Hnil, allocFromFree_eq.
  change (rootFree (reusing (counting s))) with (rootFree s).
  change (nf (reusing (counting s)) (rootFree s)) with (nf s (rootFree s)).
  change (objects (reusing (counting s))) with (objects s).
  rewrite Hroot. destruct (fl_links _ _ Hfl) as [-> _].
  pose proof (fl_alloc _ _ Hfl) as Ha. apply Forall_cons in Ha as [Ha _].
  destruct (inBounds_object s r) as [v ->]; [apply HI|by apply allocated_inBounds|].
  done.
Qed.

Lemma Inv_bumped n s :
  Inv n s -> n + 1 < opsBound -> freeList s [] ->
  Inv (n + 1) (bumped zeroO (counting s)).
Proof.
  intros HI Hn Hfl. constructor; [done|..].
  - apply counted_bumped; [apply bound_63; lia|apply HI].
  - apply sized_bumped; [apply sized_counting, HI|exact (Inv_room n s HI Hn)].
  - exists []. apply freeList_bumped.
    + apply sized_counting, HI.
    + exact (Inv_room n s HI Hn).
    + by eapply freeList_ext; [..|exact Hfl].
Qed.

Lemma Inv_popped n s r l :
  Inv n s -> n + 1 < opsBound -> freeList s (r :: l) ->
  Inv (n + 1) (popped (hd r l) (reusing (counting s))) /\
  freeList (popped (hd r l) (reusing (counting s))) l.
Proof.
  intros HI Hn Hfl.
  assert (Hfl' : freeList (popped (hd r l) (reusing (counting s))) l).
  { apply freeList_popped; [apply sized_reusing, sized_counting, HI|].
    by eapply freeList_ext; [..|exact Hfl]. }
  split; [|done]. constructor; [done|..].
  - apply counted_popped, counted_reusing; [apply bound_63; lia|apply HI].
  - apply sized_popped, sized_reusing, sized_counting, HI.
  - by exists l.
Qed.

Lemma Inv_Alloc n s :
  Inv n s -> n + 1 < opsBound ->
  exists r, Alloc zeroO s = (Ret (r, slotOf r), (Alloc zeroO s).2) /\
            Inv (n + 1) (Alloc zeroO s).2 /\
            allocated (Alloc zeroO s).2 r /\
            nf (Alloc zeroO s).2 r = Some nilRef.
Proof.
  intros HI Hn. destruct (inv_free _ _ HI) as [[|r l] Hfl].
  - exists (bumpRef s). rewrite (Alloc_fresh n s) by done. simpl.
    split; [done|]. split; [by apply Inv_bumped|].
    destruct (bumpRef_fresh zeroO (counting s) []) as (Ha & Hnf & _); auto.
    + apply sized_counting, HI.
    + exact (Inv_room n s HI Hn).
    + by eapply freeList_ext; [..|exact Hfl].
  - exists r. rewrite (Alloc_reuse n s r l) by done. simpl.
    split; [done|]. split; [by eapply Inv_popped|].
    pose proof (fl_alloc _ _ Hfl) as Ha. apply Forall_cons in Ha as [Ha _].
    destruct (freeList_root_cons _ _ _ Hfl) as [Hroot _].
    split; [done|]. rewrite <- Hroot at 2.
    change (rootFree s) with (rootFree (reusing (counting s))).
    apply nf_popped_eq.
    + apply sized_reusing, sized_counting, HI.
    + simpl. rewrite Hroot. by apply allocated_inBounds.
Qed.

Lemma Inv_freed n s r l :
  Inv n s -> n + 1 < opsBound -> freeList s l ->
  allocated s r -> nf s r = Some nilRef ->
  Inv (n + 1) (freed r s) /\ freeList (freed r s) (r :: l).
Proof.
  intros HI Hn Hfl Ha Hnf.
  assert (Hfl' : freeList (freed r s) (r :: l)).
  { apply freeList_freed; auto. apply HI. }
  split; [|done]. constructor; [done|..].
  - apply counted_freed; [apply bound_63; lia|apply HI].
  - apply sized_freed, HI.
  - by exists (r :: l).
Qed.

Lemma Inv_Free n s r :
  Inv n s -> n + 1 < opsBound -> allocated s r -> Inv (n + 1) (Free r s).2.
Proof.
  intros HI Hn Ha.
  destruct (inBounds_meta s r) as [x Hx]; [apply HI|by apply allocated_inBounds|].
  destruct (IsNil x) eqn:E.
  - apply IsNil_true in E as ->. rewrite Free_live by done. simpl.
    destruct (inv_free _ _ HI) as [l Hfl]. by eapply Inv_freed.
  - rewrite (Free_freed s r x) by done. simpl. eapply Inv_mono; [| |done]; lia.
Qed.

Lemma nf_nilRef s : sized s -> nf s nilRef = None.
Proof.
  intros Hs. unfold nf.
  destruct (get2 (s_meta s) (slotOf nilRef)) as [m|] eqn:E; [|done].
  assert (H : is_Some (get2 (s_meta s) (slotOf nilRef))) by eauto.
  apply get2_shaped in H as [H _]; [|apply Hs].
  rewrite (sz_len _ Hs) in H. pose proof (sz_chunks _ Hs) as Hc.
  unfold nchunks in Hc. unfold slotOf in H. simpl in H.
  change (wrap32 (0 - 1)) with (2 ^ 32 - 1) in H. lia.
Qed.

Lemma Free_nilRef s : sized s -> Free nilRef s = (Panic IndexOutOfRange, s).
Proof. intros Hs. by rewrite Free_eq, nf_nilRef. Qed.

Lemma Get_nilRef s : sized s -> Get nilRef s = (Panic IndexOutOfRange, s).
Proof. intros Hs. by rewrite Get_eq, nf_nilRef. Qed.

Lemma Inv_store n s p v : Inv n s -> Inv n (store s p v).
Proof.
  intros [Hb Hc Hs [l Hfl]]. constructor; [done|..].
  - by apply counted_store.
  - by apply sized_store.
  - exists l. eapply freeList_ext; [..|exact Hfl]; simpl; auto.
    by rewrite length_set2.
Qed.

End Invariant.

(** * The stores a client can reach *)

Section Reachable.

Context {O : Type} (zeroO : O).
Implicit Types (s : Store O) (r : Reference) (l : list Reference) (c : client O).

Lemma New_chunkSize : chunkSize (New zeroO) = objectChunkSize.
Proof. done. Qed.

Lemma sized_New : sized (New zeroO).
Proof.
  constructor; try done.
  - constructor; [|constructor]. rewrite length_replicate. done.
  - constructor; [|constructor]. rewrite length_replicate. done.
Qed.

Lemma freeList_New : freeList (New zeroO) [].
Proof.
  constructor; try done; [apply NoDup_nil_2|].
  intros r x _ Hx Hn. exfalso. unfold nf, New in Hx. cbn [s_meta] in Hx.
  destruct (get2 _ (slotOf r)) as [m|] eqn:E; [|done].
  apply get2_single_replicate in E as ->. injection Hx as <-. done.
Qed.

Lemma Inv_New : Inv 0 (New zeroO).
Proof.
  constructor; [done|apply counted_New|apply sized_New|].
  exists []. apply freeList_New.
Qed.

Lemma allocated_ext s s' r :
  length (objects s') = length (objects s) -> s_offset s' = s_offset s ->
  allocated s r -> allocated s' r.
Proof. unfold allocated, nchunks. by intros -> ->. Qed.

Lemma allocated_Alloc s r :
  sized s -> allocated s r -> allocated (Alloc zeroO s).2 r.
Proof.
  intros Hs Ha. destruct (Alloc_store zeroO s) as [->|[->|[x ->]]].
  - apply allocated_bumped; [by apply sized_counting|done].
  - done.
  - done.
Qed.

Lemma allocated_Free s r r' : allocated s r -> allocated (Free r' s).2 r.
Proof. intros Ha. by destruct (Free_store r' s) as [->| ->]. Qed.

Lemma allocated_store s r p v : allocated s r -> allocated (store s p v) r.
Proof. apply allocated_ext; simpl; [by rewrite length_set2|done]. Qed.

Lemma CInv_step n c o :
  CInv n c -> n + 1 < opsBound -> CInv (n + 1) (step zeroO c o).
Proof.
  intros [HI Hrefs] Hn.
  assert (Hm : Inv (n + 1) (c_store c)) by (eapply Inv_mono; [| |done]; lia).
  destruct o as [|h|h|i v]; simpl.
  - destruct (Inv_Alloc zeroO n _ HI Hn) as (r & E & HI' & Ha & Hnf).
    pose proof (allocated_Alloc (c_store c)) as Hmono.
    destruct (Alloc zeroO (c_store c)) as [o s']. simpl in *.
    injection E as ->. constructor; simpl; [done|].
    apply Forall_app. split.
    + eapply Forall_impl; [done|]. intros [r' p'] [H1 H2]. split; [|done].
      apply Hmono; [apply HI|done].
    + by constructor.
  - destruct h as [i|]; simpl.
    + destruct (c_refs c !! i) as [[r p]|] eqn:E; simpl; [|by constructor].
      pose proof (Forall_lookup_1 _ _ _ _ Hrefs E) as [Ha _]. simpl in Ha.
      constructor; simpl; [by apply Inv_Free|].
      eapply Forall_impl; [done|]. intros [r' p'] [H1 H2]. split; [|done].
      by apply allocated_Free.
    + rewrite Free_nilRef by apply HI. by constructor.
  - destruct (handleRef _ h); [|by constructor]. simpl. rewrite Get_store.
    by constructor.
  - destruct (c_refs c !! i) as [[r p]|] eqn:E; [|by constructor].
    constructor; simpl; [by apply Inv_store|].
    eapply Forall_impl; [done|]. intros [r' p'] [H1 H2]. split; [|done].
    by apply allocated_store.
Qed.

Lemma CInv_run ops :
  Z.of_nat (length ops) < opsBound -> CInv (Z.of_nat (length ops)) (run zeroO ops).
Proof.
  induction ops as [|o ops IH] using rev_ind; intros Hn.
  - constructor; [apply Inv_New|constructor].
  - rewrite run_snoc, length_app, Nat2Z.inj_add. simpl length.
    rewrite length_app in Hn. simpl in Hn.
    apply CInv_step; [|lia]. apply IH. lia.
Qed.

End Reachable.

(** * The claims about the counters, the read path and the panics *)

Section Claims_Simple.

Context {O : Type} (zeroO : O).
Implicit Types (s : Store O) (r : Reference) (l : list Reference) (c : client O).

(** C6. After any sequence of calls a client makes (fewer than 2^63 of
    them, so that no Go [int] has wrapped), the statistics satisfy
    live = allocs - frees, reused <= allocs, raw_allocs = allocs - reused and
    chunks >= ceil (raw_allocs / slots_per_slab), the slots per slab being
    the chunk size of the store, 1024. *)
Theorem stats_accounting (ops : list (op O)) :
  Z.of_nat (length ops) < 2 ^ 63 ->
  let s := c_store (run zeroO ops) in
  let st := GetStats s in
  Live st = Allocs st - Frees st /\
  Reused st <= Allocs st /\
  RawAllocs st = Allocs st - Reused st /\
  chunkSize s = 1024 /\
  ceilDiv (RawAllocs st) (chunkSize s) <= Chunks st.
Proof.
  intros Hn s st. destruct (counted_run zeroO ops Hn) as [Hcs Hoff Hraw Hre Hal Hfr].
  fold s in Hcs, Hoff, Hraw, Hre, Hal, Hfr.
  unfold st, GetStats; simpl. unfold nchunks, objectChunkSize in *.
  rewrite !wrapInt_small by lia. repeat split; try lia.
  rewrite Hcs. unfold ceilDiv.
  apply Z.lt_succ_r, Z.div_lt_upper_bound; lia.
Qed.


(** C10. A call of [Free] that panics leaves the store as it was: it is
    the double free panic whenever the slot's [nextFree] is not nil, and
    then neither the [frees] counter, nor the root of the free list, nor any
    metadata or object has changed.  A call of [Get] that panics leaves the
    store as it was too. *)
Theorem panic_leaves_store r s :
  (forall x, nf s r = Some x -> IsNil x = false ->
     Free r s = (Panic (FreeFreed r), s)) /\
  (forall e s', Free r s = (Panic e, s') -> s' = s) /\
  (forall e s', Get r s = (Panic e, s') -> s' = s).
Proof.
  split; [intros x; apply Free_freed|]. split.
  - intros e s'. rewrite Free_eq. destruct (nf s r) as [x|]; [|congruence].
    destruct (IsNil x); congruence.
  - intros e s' H. pose proof (Get_store r s) as E. rewrite H in E. done.
Qed.

End Claims_Simple.

(** * Freed slots *)

Section Freed.

Context {O : Type} (zeroO : O).
Implicit Types (s : Store O) (r : Reference) (l : list Reference) (c : client O).

Lemma CInv_foldl ops : forall n c,
  CInv n c -> n + Z.of_nat (length ops) < opsBound ->
  CInv (n + Z.of_nat (length ops)) (foldl (step zeroO) c ops).
Proof.
  induction ops as [|o ops IH]; intros n c HC Hn; simpl foldl.
  - simpl. by rewrite Z.add_0_r.
  - simpl length in *. rewrite Nat2Z.inj_succ in *.
    replace (n + Z.succ (Z.of_nat (length ops)))
      with ((n + 1) + Z.of_nat (length ops)) by lia.
    apply IH; [|lia]. apply CInv_step; [done|lia].
Qed.

Lemma run_app ops1 ops2 :
  run zeroO (ops1 ++ ops2) = foldl (step zeroO) (run zeroO ops1) ops2.
Proof. unfold run. by rewrite foldl_app. Qed.

Lemma marked_after_Free s r :
  sized s -> allocated s r -> marked (Free r s).2 r.
Proof.
  intros Hs Ha. pose proof (allocated_inBounds _ _ Ha) as Hb.
  destruct (inBounds_meta s r Hs Hb) as [x Hx].
  destruct (IsNil x) eqn:E.
  - apply IsNil_true in E as ->. rewrite Free_live by done. simpl.
    eexists. split; [by apply nf_freed_eq|].
    destruct (IsNil (rootFree s)) eqn:E; [|done]. apply IsNil_false, Ha.
  - rewrite (Free_freed s r x) by done. by exists x.
Qed.

Lemma marked_Free s r r' :
  sized s -> inBounds s r -> allocated s r' -> marked s r -> marked (Free r' s).2 r.
Proof.
  intros Hs Hb Ha' Hm. destruct (decide (r' = r)) as [->|Hne].
  - by apply marked_after_Free.
  - destruct (Free_store r' s) as [->|E]; [done|]. rewrite E. simpl.
    destruct Hm as (x & Hx & Hn). exists x. split; [|done].
    rewrite nf_freed_ne; auto using allocated_inBounds.
Qed.

Lemma marked_step n c o r :
  CInv n c -> n + 1 < opsBound ->
  inBounds (c_store c) r -> marked (c_store c) r ->
  handsOut zeroO r c [o] = false ->
  marked (c_store (step zeroO c o)) r.
Proof.
  intros [HI Hrefs] Hn Hb Hm Hho. pose proof (inv_sized _ _ HI) as Hs.
  destruct o as [|h|h|i v]; simpl.
  - destruct (inv_free _ _ HI) as [l Hfl]. destruct Hm as (x & Hx & Hnil).
    pose proof (fl_marks _ _ Hfl r x Hb Hx Hnil) as Hin.
    destruct l as [|r' l]; [by apply elem_of_nil in Hin|].
    simpl in Hho. rewrite (Alloc_reuse zeroO n _ r' l) in * by done.
    simpl in *. rewrite orb_false_r in Hho. apply bool_decide_eq_false in Hho.
    exists x. split; [|done].
    destruct (freeList_root_cons _ _ _ Hfl) as [Hroot _].
    rewrite nf_popped_ne; [done|..].
    + by apply sized_reusing, sized_counting.
    + simpl. rewrite Hroot. pose proof (fl_alloc _ _ Hfl) as Ha.
      apply Forall_cons in Ha as [Ha _]. by apply allocated_inBounds.
    + done.
    + simpl. by rewrite Hroot.
  - destruct h as [i|]; simpl.
    + destruct (c_refs c !! i) as [[r' p']|] eqn:E; simpl; [|done].
      pose proof (Forall_lookup_1 _ _ _ _ Hrefs E) as [Ha _]. simpl in Ha.
      by apply marked_Free.
    + by rewrite Free_nilRef.
  - destruct (handleRef _ h); [|done]. simpl. by rewrite Get_store.
  - by destruct (c_refs c !! i) as [[r' p']|].
Qed.

Lemma inBounds_step c o r :
  sized (c_store c) -> inBounds (c_store c) r -> inBounds (c_store (step zeroO c o)) r.
Proof.
  intros Hs Hb. destruct o as [|h|h|i v]; simpl.
  - assert (H : inBounds (Alloc zeroO (c_store c)).2 r).
    { destruct (Alloc_store zeroO (c_store c)) as [->|[->|[x ->]]]; [|done..].
      apply inBounds_bumped; [by apply sized_counting|done]. }
    by destruct (Alloc zeroO (c_store c)) as [[rp|e] s'].
  - destruct (handleRef _ h) as [r'|]; [|done]. simpl.
    by destruct (Free_store r' (c_store c)) as [->| ->].
  - destruct (handleRef _ h); [|done]. simpl. by rewrite Get_store.
  - destruct (c_refs c !! i) as [[r' p']|]; [|done]. simpl.
    unfold inBounds, nchunks in *. simpl. by rewrite length_set2.
Qed.

Lemma marked_foldl ops r : forall n c,
  CInv n c -> n + Z.of_nat (length ops) < opsBound ->
  inBounds (c_store c) r -> marked (c_store c) r ->
  handsOut zeroO r c ops = false ->
  marked (c_store (foldl (step zeroO) c ops)) r.
Proof.
  induction ops as [|o ops IH]; intros n c HC Hn Hb Hm Hho; [done|].
  simpl length in Hn. rewrite Nat2Z.inj_succ in Hn.
  simpl foldl. simpl in Hho. apply orb_false_elim in Hho as [Ho Hrest].
  apply (IH (n + 1)); [|lia| | |done].
  - apply CInv_step; [done|lia].
  - apply inBounds_step; [apply HC|done].
  - apply (marked_step n); [done|lia|done..|]. simpl. by rewrite Ho.
Qed.

End Freed.

(** * The claims about freed references *)

Section Claims_Freed.

Context {O : Type} (zeroO : O).
Implicit Types (s : Store O) (r : Reference) (l : list Reference) (c : client O).


(** C3, as the code has it.  After [Free r] of a reference [r] a client got
    from [Alloc], every [Get r] panics with "attempted to Get freed object"
    and leaves the store as it is, for as long as no call of [Alloc] has
    returned [r] again.  (References hold a chunk and an offset and no
    generation: once [Alloc] has handed the slot out again, the old
    reference is the new one.) *)
Theorem use_after_free_until_reuse (ops1 ops2 : list (op O)) i r p :
  Z.of_nat (length ops1) + 1 + Z.of_nat (length ops2) < opsBound ->
  c_refs (run zeroO ops1) !! i = Some (r, p) ->
  handsOut zeroO r (run zeroO (ops1 ++ [OpFree (Issued i)])) ops2 = false ->
  let s := c_store (run zeroO (ops1 ++ OpFree (Issued i) :: ops2)) in
  Get r s = (Panic (GetFreed r), s).
Proof.
  intros Hn Hi Hho s.
  destruct (CInv_run zeroO ops1) as [HI Hrefs]; [lia|].
  pose proof (Forall_lookup_1 _ _ _ _ Hrefs Hi) as [Ha _]. simpl in Ha.
  assert (HC : CInv (Z.of_nat (length ops1) + 1) (run zeroO (ops1 ++ [OpFree (Issued i)]))).
  { rewrite run_snoc. apply CInv_step; [by apply CInv_run; lia|lia]. }
  assert (E : c_store (run zeroO (ops1 ++ [OpFree (Issued i)])) =
              (Free r (c_store (run zeroO ops1))).2).
  { rewrite run_snoc. simpl. by rewrite Hi. }
  destruct (marked_foldl zeroO ops2 r _ _ HC) as (x & Hx & Hnil); [lia|..|done|].
  - rewrite E. by apply allocated_inBounds, allocated_Free.
  - rewrite E. apply marked_after_Free; [apply HI|done].
  - rewrite <- run_app, <- app_assoc in Hx. simpl in Hx. fold s in Hx.
    by apply (Get_freed s r x).
Qed.

End Claims_Freed.

(** * Freeing and allocating in a row *)

Section Reuse.

Context {O : Type} (zeroO : O).
Implicit Types (s : Store O) (r : Reference) (l : list Reference) (c : client O).

Lemma live_freed s r r' : sized s -> live s r -> live s r' -> r ≠ r' -> live (freed r s) r'.
Proof.
  intros Hs [Ha Hnf] [Ha' Hnf'] Hne. split; [done|].
  rewrite nf_freed_ne; auto using allocated_inBounds.
Qed.

Lemma freeMany_live rs : forall n s l,
  Inv n s -> freeList s l -> NoDup rs -> Forall (live s) rs ->
  n + Z.of_nat (length rs) < opsBound ->
  (freeMany rs s).1 = map (fun _ => Ret tt) rs /\
  Inv (n + Z.of_nat (length rs)) (freeMany rs s).2 /\
  freeList (freeMany rs s).2 (rev rs ++ l) /\
  reused (freeMany rs s).2 = reused s.
Proof.
  induction rs as [|r rs IH]; intros n s l HI Hfl Hnd Hlive Hn.
  - simpl. rewrite Z.add_0_r. done.
  - apply NoDup_cons in Hnd as [Hnotin Hnd].
    apply Forall_cons in Hlive as [[Ha Hnf] Hlive].
    simpl length in *. rewrite Nat2Z.inj_succ in *.
    destruct (Inv_freed n s r l) as [HI' Hfl']; auto; [lia|].
    destruct (IH (n + 1) (freed r s) (r :: l)) as (E1 & HI2 & Hfl2 & Hre); auto.
    { rewrite Forall_forall in Hlive |- *. intros r' Hin.
      apply live_freed; [apply HI|done|by apply Hlive|by intros ->]. }
    { lia. }
    simpl freeMany. rewrite (Free_live s r Hnf).
    destruct (freeMany rs (freed r s)) as [os s2] eqn:E. simpl in *.
    split; [by rewrite E1|]. split; [|split; [|done]].
    + replace (n + Z.succ (Z.of_nat (length rs))) with (n + 1 + Z.of_nat (length rs)) by lia.
      done.
    + by rewrite <- app_assoc.
Qed.

Lemma allocMany_pops rs : forall n s l,
  Inv n s -> freeList s (rs ++ l) ->
  n + Z.of_nat (length rs) < opsBound ->
  (allocMany zeroO (length rs) s).1 = map (fun r => Ret (r, slotOf r)) rs /\
  Inv (n + Z.of_nat (length rs)) (allocMany zeroO (length rs) s).2 /\
  freeList (allocMany zeroO (length rs) s).2 l /\
  reused (allocMany zeroO (length rs) s).2 = reused s + Z.of_nat (length rs) /\
  (forall r, r ∈ rs -> live (allocMany zeroO (length rs) s).2 r) /\
  (forall r, inBounds s r -> r ∉ rs ->
     nf (allocMany zeroO (length rs) s).2 r = nf s r /\
     (allocated s r -> allocated (allocMany zeroO (length rs) s).2 r)).
Proof.
  induction rs as [|r rs IH]; intros n s l HI Hfl Hn.
  - simpl. rewrite !Z.add_0_r.
    split; [done|]. split; [done|]. split; [done|]. split; [done|].
    split; [|done]. intros r Hr. by apply elem_of_nil in Hr.
  - simpl length in *. rewrite Nat2Z.inj_succ in *. simpl in Hfl.
    pose proof (inv_sized _ _ HI) as Hs.
    set (s1 := popped (hd r (rs ++ l)) (reusing (counting s))).
    destruct (Inv_popped n s r (rs ++ l)) as [HI1 Hfl1]; auto; [lia|]. fold s1 in HI1, Hfl1.
    destruct (IH (n + 1) s1 l) as (E1 & HI2 & Hfl2 & Hre & Hlive & Hframe); auto; [lia|].
    pose proof (fl_alloc _ _ Hfl) as Hal. apply Forall_cons in Hal as [Ha Hal].
    pose proof (fl_nodup _ _ Hfl) as Hnd. apply NoDup_cons in Hnd as [Hnotin Hnd].
    destruct (freeList_root_cons _ _ _ Hfl) as [Hroot Hnil].
    assert (Hnf1 : live s1 r).
    { split; [done|]. unfold s1. rewrite <- Hroot at 2.
      change (rootFree s) with (rootFree (reusing (counting s))).
      apply nf_popped_eq; [by apply sized_reusing, sized_counting|].
      simpl. rewrite Hroot. by apply allocated_inBounds. }
    assert (Hb1 : forall r', inBounds s r' -> inBounds s1 r') by done.
    simpl allocMany. rewrite (Alloc_reuse zeroO n s r (rs ++ l)) by done. fold s1.
    destruct (allocMany zeroO (length rs) s1) as [os s2] eqn:E. simpl in *.
    split; [by rewrite E1|]. split; [|split; [done|split; [|split]]].
    + replace (n + Z.succ (Z.of_nat (length rs))) with (n + 1 + Z.of_nat (length rs)) by lia.
      done.
    + rewrite Hre. unfold s1; simpl. pose proof (inv_counted _ _ HI) as [? ? ? ? ? ?].
      unfold opsBound in *. rewrite wrapInt_small; lia.
    + intros r' Hin. apply elem_of_cons in Hin as [->|Hin]; [|by apply Hlive].
      assert (Hr : r ∉ rs).
      { intros Hin. apply Hnotin. apply elem_of_app. by left. }
      destruct (Hframe r) as [Hf1 Hf2]; [by apply allocated_inBounds|done|].
      destruct Hnf1 as [Ha1 Hnf1]. split; [by apply Hf2|]. by rewrite Hf1.
    + intros r' Hb Hnot. apply not_elem_of_cons in Hnot as [Hne Hnot].
      destruct (Hframe r') as [Hf1 Hf2]; [by apply Hb1|done|].
      split; [|intros Ha'; apply Hf2; exact Ha'].
      rewrite Hf1. unfold s1. rewrite nf_popped_ne; [done|..].
      * by apply sized_reusing, sized_counting.
      * simpl. rewrite Hroot. by apply allocated_inBounds.
      * done.
      * simpl. rewrite Hroot. by intros ->.
Qed.

Lemma links_last s l t : links s l -> last l = Some t -> nf s t = Some t.
Proof.
  induction l as [|a l IH]; [done|]. intros [H1 H2] Hl.
  destruct l as [|b l]; [by injection Hl as <-|]. by apply IH.
Qed.

End Reuse.

(** * The claims about the free list *)

Section Claims_FreeList.

Context {O : Type} (zeroO : O).
Implicit Types (s : Store O) (r : Reference) (l : list Reference) (c : client O).

(** C1, as the code has it.  In a store a client has reached, free [k]
    distinct live references and then allocate [k] times: every call
    succeeds, the allocations return the freed references themselves, last
    freed first, each with the pointer to the object of its slot, [reused]
    grows by [k] and the free list is what it was before.  A reference is a
    chunk and an offset and holds no generation, so the reference [Alloc]
    returns for a reused slot is equal to the one that was freed, and [Get]
    with the saved reference succeeds again and yields the reused object. *)
Theorem free_then_reuse (ops : list (op O)) (rs : list Reference) :
  Z.of_nat (length ops) + 2 * Z.of_nat (length rs) < opsBound ->
  let s := c_store (run zeroO ops) in
  NoDup rs -> Forall (live s) rs ->
  let s1 := (freeMany rs s).2 in
  let s2 := (allocMany zeroO (length rs) s1).2 in
  (freeMany rs s).1 = map (fun _ => Ret tt) rs /\
  (allocMany zeroO (length rs) s1).1 = map (fun r => Ret (r, slotOf r)) (rev rs) /\
  reused s2 = reused s + Z.of_nat (length rs) /\
  (forall r, r ∈ rs -> Get r s2 = (Ret (slotOf r), s2)) /\
  (forall l, freeList s l -> freeList s2 l).
Proof.
  intros Hn s Hnd Hlive s1 s2.
  destruct (CInv_run zeroO ops) as [HI _]; [lia|]. fold s in HI.
  destruct (inv_free _ _ HI) as [l Hfl].
  destruct (freeMany_live rs _ s l HI Hfl Hnd Hlive) as (E1 & HI1 & Hfl1 & Hre1); [lia|].
  fold s1 in HI1, Hfl1, Hre1.
  destruct (allocMany_pops zeroO (rev rs) _ s1 l HI1 Hfl1)
    as (E2 & HI2 & Hfl2 & Hre2 & Hlive2 & _); [rewrite length_rev; lia|].
  rewrite length_rev in *. fold s2 in HI2, Hfl2, Hre2, Hlive2.
  split; [done|]. split; [done|]. split; [lia|]. split.
  - intros r Hr. destruct (Hlive2 r) as [Ha Hnf].
    { apply list_elem_of_In, in_rev. rewrite rev_involutive. by apply list_elem_of_In. }
    apply Get_live; [apply HI2|by apply allocated_inBounds|done].
  - intros l' Hfl'. by rewrite (freeList_unique s l' l Hfl' Hfl).
Qed.

(** C2. In every store a client has reached the free list is well formed:
    there is a list [l] of distinct allocated slots, starting at the root,
    each linked to the next through [nextFree] and the last linked to
    itself; the root is nil exactly when [l] is empty; and the slots whose
    [nextFree] is not nil are exactly those of [l].  Freeing one live
    reference [r] while the list is empty makes [r] the root with
    [nextFree] [r]; the next [Alloc] returns [r], makes the root nil again
    and adds one to [reused]. *)
Theorem free_list_shape (ops : list (op O)) :
  Z.of_nat (length ops) + 2 < opsBound ->
  let s := c_store (run zeroO ops) in
  (exists l, freeList s l /\
     (rootFree s = nilRef <-> l = []) /\
     (forall t, last l = Some t -> nf s t = Some t) /\
     (forall r, r ∈ l -> marked s r)) /\
  (forall r, rootFree s = nilRef -> live s r ->
     let s1 := (Free r s).2 in
     let s2 := (Alloc zeroO s1).2 in
     Free r s = (Ret tt, s1) /\
     rootFree s1 = r /\ nf s1 r = Some r /\
     Alloc zeroO s1 = (Ret (r, slotOf r), s2) /\
     rootFree s2 = nilRef /\ reused s2 = reused s + 1).
Proof.
  intros Hn s. destruct (CInv_run zeroO ops) as [HI _]; [lia|]. fold s in HI.
  destruct (inv_free _ _ HI) as [l Hfl]. split.
  - exists l. split; [done|]. split; [|split].
    + split.
      * intros Hroot. apply (freeList_nil_root s l Hfl). by rewrite Hroot.
      * intros ->. apply IsNil_true. by apply freeList_root_nil.
    + intros t. apply links_last, Hfl.
    + intros r. apply links_marked; apply Hfl.
  - intros r Hroot [Ha Hnf] s1 s2.
    assert (l = []) as -> by (apply (freeList_nil_root s l Hfl); by rewrite Hroot).
    destruct (Inv_freed _ s r [] HI) as [HI1 Hfl1]; auto; [lia|].
    assert (E1 : Free r s = (Ret tt, freed r s)) by by apply Free_live.
    assert (Es1 : s1 = freed r s) by (unfold s1; by rewrite E1).
    rewrite <- Es1 in *.
    pose proof (Alloc_reuse zeroO _ s1 r [] HI1 Hfl1) as E2.
    assert (Es2 : s2 = popped r (reusing (counting s1))) by (unfold s2; by rewrite E2).
    destruct (Inv_popped _ s1 r [] HI1) as [HI2 Hfl2]; auto; [lia|].
    simpl hd in *. rewrite <- Es2 in *.
    split; [done|]. split; [by rewrite Es1|]. split.
    { destruct (fl_links _ _ Hfl1) as [H _]. done. }
    split; [done|]. split; [apply IsNil_true; by apply freeList_root_nil|].
    rewrite Es2, Es1. simpl. pose proof (inv_counted _ _ HI) as [? ? ? ? ? ?].
    unfold opsBound in *. rewrite wrapInt_small; lia.
Qed.

End Claims_FreeList.

(** * Objects stay where they are *)

Section Stability.

Context {O : Type} (zeroO : O).
Implicit Types (s : Store O) (r : Reference) (l : list Reference) (p q : Ptr).

Lemma Get_Ret r s p s' :
  Get r s = (Ret p, s') <->
  nf s r = Some nilRef /\ is_Some (load s (slotOf r)) /\ p = slotOf r /\ s' = s.
Proof.
  rewrite Get_eq. unfold load. split.
  - destruct (nf s r) as [x|]; [|done]. destruct (IsNil x) eqn:E; [|done].
    apply IsNil_true in E as ->.
    destruct (get2 (objects s) (slotOf r)) as [v|] eqn:Ev; [|done].
    intros [= <- <-]. eauto.
  - intros (-> & [v ->] & -> & ->). done.
Qed.

Lemma bumped_cells s q :
  is_Some (load s q) -> load (bumped zeroO s) q = load s q.
Proof.
  intros H. unfold load, bumped in *.
  destruct (s_offset _ =? chunkSize _); [|done].
  cbn [objects set_offset set_objects set_meta]. by apply get2_app_l.
Qed.

Lemma bumped_meta s r :
  is_Some (nf s r) -> nf (bumped zeroO s) r = nf s r.
Proof.
  intros H. apply fmap_is_Some in H. unfold nf, bumped in *.
  destruct (s_offset _ =? chunkSize _); [|done].
  cbn [s_meta set_offset set_objects set_meta]. by rewrite get2_app_l.
Qed.

Lemma popped_meta x s r :
  nf s r = Some nilRef -> nf (popped x s) r = Some nilRef.
Proof.
  intros H. unfold nf, popped in *. cbn [s_meta set_rootFree set_meta].
  destruct (decide (slotOf (rootFree s) = slotOf r)) as [E|E].
  - rewrite E, get2_set2_eq; [done|].
    by destruct (get2 (s_meta s) (slotOf r)).
  - by rewrite get2_set2_ne.
Qed.

Lemma Alloc_cells s q :
  is_Some (load s q) -> load (Alloc zeroO s).2 q = load s q.
Proof.
  intros H. destruct (Alloc_store zeroO s) as [->|[->|[x ->]]]; [|done..].
  by apply (bumped_cells (counting s)).
Qed.

Lemma Alloc_meta s r :
  nf s r = Some nilRef -> nf (Alloc zeroO s).2 r = Some nilRef.
Proof.
  intros H. destruct (Alloc_store zeroO s) as [->|[->|[x ->]]].
  - rewrite (bumped_meta (counting s)); [done|]. change (is_Some (nf s r)).
    by rewrite H.
  - done.
  - by apply (popped_meta x (reusing (counting s))).
Qed.

Lemma allocMany_S_store N s :
  (allocMany zeroO (S N) s).2 = (allocMany zeroO N (Alloc zeroO s).2).2.
Proof.
  simpl. destruct (Alloc zeroO s) as [o s1]. simpl.
  by destruct (allocMany zeroO N s1).
Qed.

Lemma allocMany_stable N : forall s,
  (forall q, is_Some (load s q) -> load (allocMany zeroO N s).2 q = load s q) /\
  (forall r, nf s r = Some nilRef -> nf (allocMany zeroO N s).2 r = Some nilRef).
Proof.
  induction N as [|N IH]; intros s; [done|].
  rewrite allocMany_S_store. destruct (IH (Alloc zeroO s).2) as [IH1 IH2]. split.
  - intros q H. rewrite IH1; [by apply Alloc_cells|]. by rewrite Alloc_cells.
  - intros r H. by apply IH2, Alloc_meta.
Qed.

End Stability.

(** * The claim about the objects *)

Section Claims_Objects.

Context {O : Type} (zeroO : O).
Implicit Types (r : Reference) (p q : Ptr).

(** C5. Round trip: in a store a client has reached, [Alloc] returns a
    reference [r] and a pointer [p]; [Get r] returns [p]; after writing [v]
    through [p], [Get r] returns [p] again and [v] is read through it.
    Stability: in any store, if [Get r] returns [p], then after [N] further
    calls of [Alloc] it still returns [p], the object read through [p] is
    the same, and so is every object of the store (nothing is moved or
    overwritten). *)
Theorem round_trip_and_stability (ops : list (op O)) (N : nat) :
  Z.of_nat (length ops) + 1 < opsBound ->
  (exists r p,
     let s := c_store (run zeroO ops) in
     let s1 := (Alloc zeroO s).2 in
     Alloc zeroO s = (Ret (r, p), s1) /\
     Get r s1 = (Ret p, s1) /\
     forall v,
       let s2 := store s1 p v in
       Get r s2 = (Ret p, s2) /\ load s2 p = Some v) /\
  (forall (s : Store O) r p,
     Get r s = (Ret p, s) ->
     let s' := (allocMany zeroO N s).2 in
     Get r s' = (Ret p, s') /\
     load s' p = load s p /\
     forall q, is_Some (load s q) -> load s' q = load s q).
Proof.
  intros Hn. split.
  - destruct (CInv_run zeroO ops) as [HI _]; [lia|].
    destruct (Inv_Alloc zeroO _ _ HI) as (r & E & HI1 & Ha & Hnf); [lia|].
    exists r, (slotOf r). intros s s1. fold s in E. fold s1 in E, HI1, Ha, Hnf.
    pose proof (allocated_inBounds _ _ Ha) as Hb.
    pose proof (inv_sized _ _ HI1) as Hs1.
    split; [done|]. split; [by apply Get_live|].
    intros v s2. split.
    + apply Get_live; [by apply sized_store| |done].
      unfold inBounds, nchunks in *. unfold s2; simpl. by rewrite length_set2.
    + unfold s2, load; simpl. apply get2_set2_eq. by apply inBounds_object.
  - intros s r p HG s'. apply Get_Ret in HG as (Hnf & Hsome & -> & _).
    destruct (allocMany_stable zeroO N s) as [H1 H2]. fold s' in H1, H2.
    split; [|split; [by apply H1|done]].
    apply Get_Ret. split; [by apply H2|]. split; [|done].
    rewrite H1; done.
Qed.

End Claims_Objects.

(** * The reference with the hidden generation *)

Section Tagged.

Implicit Types (r : PointerStore.RefPointer) (mem : PointerStore.memory) (g d : Z).

Lemma pointerMask_ones : PointerStore.pointerMask = Z.ones 56.
Proof. reflexivity. Qed.

Lemma genMask_ones : PointerStore.genMask = Z.shiftl (Z.ones 8) 56.
Proof. reflexivity. Qed.

Lemma masks_disjoint : Z.land PointerStore.pointerMask PointerStore.genMask = 0.
Proof. reflexivity. Qed.

Lemma uint8_high_bits g n : PointerStore.uint8 g -> 8 <= n -> Z.testbit g n = false.
Proof.
  intros Hg Hn. rewrite <- (Z.mod_small g (2 ^ 8)) by exact Hg.
  apply Z.mod_pow2_bits_high. lia.
Qed.

Lemma strip_setGen d g :
  Z.land (Z.lor (Z.land d PointerStore.pointerMask) (Z.shiftl g PointerStore.genShift))
    PointerStore.pointerMask
  = Z.land d PointerStore.pointerMask.
Proof.
  rewrite pointerMask_ones. unfold PointerStore.genShift.
  apply Z.bits_inj'. intros n Hn.
  rewrite !Z.land_spec, Z.lor_spec, Z.land_spec, Z.shiftl_spec by lia.
  rewrite Z.testbit_ones_nonneg by lia.
  destruct (Z.ltb_spec n 56).
  - rewrite (Z.testbit_neg_r g) by lia. by rewrite orb_false_r, !andb_true_r.
  - by rewrite !andb_false_r.
Qed.

Lemma tag_setGen d g :
  PointerStore.uint8 g ->
  Z.shiftr
    (Z.land (Z.lor (Z.land d PointerStore.pointerMask) (Z.shiftl g PointerStore.genShift))
       PointerStore.genMask)
    PointerStore.genShift
  = g.
Proof.
  intros Hg. rewrite pointerMask_ones, genMask_ones. unfold PointerStore.genShift.
  apply Z.bits_inj'. intros n Hn.
  rewrite Z.shiftr_spec, Z.land_spec, Z.lor_spec, Z.land_spec, !Z.shiftl_spec by lia.
  rewrite !Z.testbit_ones_nonneg by lia.
  replace (n + 56 - 56) with n by lia.
  destruct (Z.ltb_spec (n + 56) 56); [lia|]. rewrite andb_false_r. simpl.
  destruct (Z.ltb_spec n 8).
  - by rewrite andb_true_r.
  - rewrite andb_false_r. symmetry. by apply uint8_high_bits.
Qed.

Lemma Gen_eq r :
  PointerStore.Gen r = (PointerStore.dataAddress r / 2 ^ 56) mod 2 ^ 8.
Proof.
  unfold PointerStore.Gen, PointerStore.genShift. rewrite genMask_ones.
  rewrite <- Z.shiftr_div_pow2, <- Z.land_ones by lia.
  apply Z.bits_inj'. intros n Hn.
  rewrite Z.shiftr_spec, !Z.land_spec, Z.shiftl_spec, Z.shiftr_spec by lia.
  by replace (n + 56 - 56) with n by lia.
Qed.

Lemma Gen_uint8 r : PointerStore.uint8 (PointerStore.Gen r).
Proof. rewrite Gen_eq. apply Z.mod_pos_bound. lia. Qed.

Lemma wrap8_uint8 x : PointerStore.uint8 (PointerStore.wrap8 x).
Proof. apply Z.mod_pos_bound. lia. Qed.

Lemma wrap8_succ_ne g : PointerStore.uint8 g -> PointerStore.wrap8 (g + 1) ≠ g.
Proof.
  unfold PointerStore.uint8, PointerStore.wrap8. intros Hg.
  destruct (decide (g = 255)) as [->|Hne]; [done|].
  rewrite Z.mod_small; lia.
Qed.

Lemma Gen_setGen g r :
  PointerStore.uint8 g -> PointerStore.Gen (PointerStore.setGen g r) = g.
Proof. intros Hg. unfold PointerStore.Gen, PointerStore.setGen; simpl. by apply tag_setGen. Qed.

Lemma metadataOf_setGen g g' r mem :
  PointerStore.metadataOf (PointerStore.setGen g' r) (PointerStore.setMetadataGen g r mem)
  = PointerStore.mkMetadata (PointerStore.nextFree (PointerStore.metadataOf r mem)) g.
Proof.
  unfold PointerStore.metadataOf, PointerStore.setMetadataGen, PointerStore.metadataAt,
    PointerStore.memory in *.
  simpl. by rewrite lookup_insert_eq.
Qed.

Lemma metadataOf_same g r mem :
  PointerStore.metadataOf r (PointerStore.setMetadataGen g r mem)
  = PointerStore.mkMetadata (PointerStore.nextFree (PointerStore.metadataOf r mem)) g.
Proof.
  unfold PointerStore.metadataOf, PointerStore.setMetadataGen, PointerStore.metadataAt,
    PointerStore.memory in *.
  by rewrite lookup_insert_eq.
Qed.

Lemma stale_false r mem :
  PointerStore.stale r mem = false <->
  PointerStore.IsNil (PointerStore.nextFree (PointerStore.metadataOf r mem)) = true /\
  PointerStore.gen (PointerStore.metadataOf r mem) = PointerStore.Gen r.
Proof.
  unfold PointerStore.stale. rewrite orb_false_iff, !negb_false_iff, Z.eqb_eq. done.
Qed.

(** C8. For every valid reference [r] (one whose dereference succeeds),
    [r2 = r.Realloc()] has the data pointer and the metadata pointer of [r]
    and a generation different from that of [r]; afterwards dereferencing
    [r2] succeeds and dereferencing [r] fails with UseAfterFree. *)
Theorem Realloc_contract r mem :
  PointerStore.stale r mem = false ->
  let r2 := (PointerStore.Realloc r mem).1 in
  let mem2 := (PointerStore.Realloc r mem).2 in
  PointerStore.DataPtr r2 mem2 = PointerStore.DataPtr r mem /\
  PointerStore.metadataPtr r2 mem2 = PointerStore.metadataPtr r mem /\
  PointerStore.Gen r2 ≠ PointerStore.Gen r /\
  (exists a, PointerStore.DataPtr r2 mem2 = PointerStore.Ok a) /\
  PointerStore.DataPtr r mem2 = PointerStore.Fail PointerStore.UseAfterFree /\
  PointerStore.metadataPtr r mem2 = PointerStore.Fail PointerStore.UseAfterFree.
Proof.
  intros Hv r2 mem2. pose proof Hv as Hv'. apply stale_false in Hv' as [Hnil Hgen].
  set (g' := PointerStore.wrap8 (PointerStore.gen (PointerStore.metadataOf r mem) + 1)).
  assert (Hg' : PointerStore.uint8 g') by apply wrap8_uint8.
  assert (HG2 : PointerStore.Gen r2 = g') by (by apply Gen_setGen).
  assert (Hne : g' ≠ PointerStore.Gen r).
  { unfold g'. rewrite Hgen. apply wrap8_succ_ne, Gen_uint8. }
  assert (Hs2 : PointerStore.stale r2 mem2 = false).
  { apply stale_false. unfold r2, mem2, PointerStore.Realloc; cbn [fst snd].
    rewrite metadataOf_setGen. cbn [PointerStore.nextFree PointerStore.gen].
    split; [done|]. symmetry. by apply Gen_setGen. }
  assert (Hs : PointerStore.stale r mem2 = true).
  { unfold PointerStore.stale, mem2, PointerStore.Realloc; cbn [fst snd].
    rewrite metadataOf_same. cbn [PointerStore.nextFree PointerStore.gen].
    rewrite Hnil. simpl. apply negb_true_iff, Z.eqb_neq. done. }
  assert (HD : PointerStore.DataPtr r2 mem2 = PointerStore.DataPtr r mem).
  { unfold PointerStore.DataPtr. rewrite Hs2, Hv. f_equal.
    unfold r2, PointerStore.Realloc; cbn [fst snd]. apply strip_setGen. }
  split; [done|]. split.
  { unfold PointerStore.metadataPtr. by rewrite Hs2, Hv. }
  split; [by rewrite HG2|]. split.
  { rewrite HD. unfold PointerStore.DataPtr. rewrite Hv. eauto. }
  unfold PointerStore.DataPtr, PointerStore.metadataPtr. by rewrite Hs.
Qed.

(** C9. Storing any 8 bit generation in a reference, and in the metadata of
    its slot, changes neither the address the data pointer accessor returns
    nor the one the metadata pointer accessor returns, and [Gen] returns the
    stored tag; the data address returned has the 8 generation bits
    cleared. *)
Theorem tag_hiding r mem g :
  PointerStore.uint8 g ->
  let r' := PointerStore.setGen g r in
  let mem' := PointerStore.setMetadataGen g r mem in
  PointerStore.Gen r' = g /\
  Z.land (PointerStore.dataAddress r') PointerStore.pointerMask
    = Z.land (PointerStore.dataAddress r) PointerStore.pointerMask /\
  PointerStore.metaAddress r' = PointerStore.metaAddress r /\
  (PointerStore.stale r mem = false ->
     PointerStore.DataPtr r' mem' = PointerStore.DataPtr r mem /\
     PointerStore.metadataPtr r' mem' = PointerStore.metadataPtr r mem) /\
  (forall a, PointerStore.DataPtr r' mem' = PointerStore.Ok a ->
     Z.land a PointerStore.genMask = 0).
Proof.
  intros Hg r' mem'.
  assert (HG : PointerStore.Gen r' = g) by by apply Gen_setGen.
  split; [done|]. split; [apply strip_setGen|]. split; [done|]. split.
  - intros Hv. pose proof Hv as Hv'. apply stale_false in Hv' as [Hnil Hgen].
    assert (Hs : PointerStore.stale r' mem' = false).
    { apply stale_false. unfold mem'. unfold r' at 1 2.
      rewrite metadataOf_setGen. cbn [PointerStore.nextFree PointerStore.gen].
      by rewrite HG. }
    unfold PointerStore.DataPtr, PointerStore.metadataPtr. rewrite Hs, Hv.
    split; [|done]. f_equal. apply strip_setGen.
  - intros a. unfold PointerStore.DataPtr.
    destruct (PointerStore.stale r' mem'); [done|]. intros [= <-].
    by rewrite <- Z.land_assoc, masks_disjoint, Z.land_0_r.
Qed.

End Tagged.

(** * The theorems at work on the programs of the tests *)

Lemma stats_accounting_witness :
  Z.of_nat (length freeAndReuse) < 2 ^ 63 /\
  let s := c_store (run 0 freeAndReuse) in
  let st := GetStats s in
  Live st = Allocs st - Frees st /\
  Reused st <= Allocs st /\
  RawAllocs st = Allocs st - Reused st /\
  chunkSize s = 1024 /\
  ceilDiv (RawAllocs st) (chunkSize s) <= Chunks st.
Proof.
  assert (H : Z.of_nat (length freeAndReuse) < 2 ^ 63) by (simpl; lia).
  split; [exact H|]. exact (stats_accounting 0 freeAndReuse H).
Defined.


Lemma panic_leaves_store_witness :
  let s := c_store (run 0 [OpAlloc; OpFree (Issued 0)]) in
  nf s refA = Some refA /\ Free refA s = (Panic (FreeFreed refA), s).
Proof.
  intros s. assert (H : nf s refA = Some refA) by (vm_compute; reflexivity).
  split; [exact H|].
  destruct (panic_leaves_store refA s) as [H1 _]. apply (H1 refA H). reflexivity.
Defined.


Lemma use_after_free_until_reuse_witness :
  let ops1 : list (op Z) := [OpAlloc; OpAlloc] in
  let ops2 : list (op Z) := [OpFree (Issued 1); OpAlloc] in
  let s := c_store (run 0 (ops1 ++ OpFree (Issued 0) :: ops2)) in
  handsOut 0 refA (run 0 (ops1 ++ [OpFree (Issued 0)])) ops2 = false /\
  Get refA s = (Panic (GetFreed refA), s).
Proof.
  intros ops1 ops2 s.
  assert (Hh : handsOut 0 refA (run 0 (ops1 ++ [OpFree (Issued 0)])) ops2 = false)
    by (vm_compute; reflexivity).
  split; [exact Hh|].
  apply (use_after_free_until_reuse 0 ops1 ops2 0%nat refA (0, 0)%nat);
    [vm_compute; reflexivity | vm_compute; reflexivity | exact Hh].
Defined.

(** The claim C3 as it is written fails: the second [Alloc] hands the freed
    slot out again and [Get] with the freed reference succeeds. *)
Lemma use_after_free_missed_after_reuse :
  ¬ (forall (ops1 ops2 : list (op Z)) i r p,
       c_refs (run 0 ops1) !! i = Some (r, p) ->
       exists e,
         (Get r (c_store (run 0 (ops1 ++ OpFree (Issued i) :: ops2)))).1 = Panic e).
Proof.
  intros H.
  destruct (H [OpAlloc] [OpAlloc] 0%nat refA (0, 0)%nat) as [e He].
  - vm_compute. reflexivity.
  - vm_compute in He. discriminate He.
Qed.

Lemma live_after_three_allocs :
  Forall (live (c_store (run 0 [OpAlloc; OpAlloc; OpAlloc]))) [refB; refC].
Proof.
  repeat constructor; vm_compute; congruence.
Defined.

Lemma free_then_reuse_witness :
  let s := c_store (run 0 [OpAlloc; OpAlloc; OpAlloc]) in
  let s1 := (freeMany [refB; refC] s).2 in
  let s2 := (allocMany 0 2 s1).2 in
  (allocMany 0 2 s1).1 = [Ret (refC, slotOf refC); Ret (refB, slotOf refB)] /\
  Get refB s2 = (Ret (slotOf refB), s2) /\
  reused s2 = 2.
Proof.
  intros s s1 s2.
  assert (Hn : Z.of_nat (length [@OpAlloc Z; OpAlloc; OpAlloc])
               + 2 * Z.of_nat (length [refB; refC]) < opsBound)
    by (vm_compute; reflexivity).
  assert (Hnd : NoDup [refB; refC]).
  { apply NoDup_cons. split; [|apply NoDup_singleton].
    intros H. apply list_elem_of_singleton in H. discriminate H. }
  destruct (free_then_reuse 0 [OpAlloc; OpAlloc; OpAlloc] [refB; refC]
              Hn Hnd live_after_three_allocs) as (_ & H2 & H3 & H4 & _).
  split; [exact H2|]. split.
  - apply H4. left.
  - exact H3.
Defined.

(** The claim C1 as it is written fails in the scenario S3: D is the
    reference B over again, and [Get] with the saved B does not panic. *)
Lemma saved_reference_usable_after_reuse :
  let c := run 0 freeAndReuse in
  exists p,
    c_refs c !! 1%nat = Some (refB, p) /\
    c_refs c !! 3%nat = Some (refB, p) /\
    ¬ (exists e, (Get refB (c_store c)).1 = Panic e).
Proof.
  exists (0, 1)%nat. split; [vm_compute; reflexivity|].
  split; [vm_compute; reflexivity|].
  intros [e He]. vm_compute in He. discriminate He.
Qed.

Lemma free_list_shape_witness :
  let s := c_store (run 0 [OpAlloc]) in
  let s1 := (Free refA s).2 in
  let s2 := (Alloc 0 s1).2 in
  live s refA /\
  rootFree s1 = refA /\ nf s1 refA = Some refA /\
  Alloc 0 s1 = (Ret (refA, slotOf refA), s2) /\
  rootFree s2 = nilRef /\ reused s2 = 1.
Proof.
  intros s s1 s2.
  assert (Hn : Z.of_nat (length [@OpAlloc Z]) + 2 < opsBound) by (vm_compute; reflexivity).
  destruct (free_list_shape 0 [OpAlloc] Hn) as [_ H].
  assert (Hl : live s refA) by (split; vm_compute; [intuition congruence|reflexivity]).
  destruct (H refA eq_refl Hl) as (_ & H2 & H3 & H4 & H5 & H6).
  repeat (split; [assumption|]).
  transitivity (reused s + 1); [exact H6|]. vm_compute. reflexivity.
Defined.

Lemma round_trip_and_stability_witness :
  let s := c_store (run 0 [OpAlloc]) in
  let s' := (allocMany 0 3 s).2 in
  Get refA s = (Ret (0, 0)%nat, s) /\
  Get refA s' = (Ret (0, 0)%nat, s') /\ load s' (0, 0)%nat = load s (0, 0)%nat.
Proof.
  intros s s'.
  assert (Hn : Z.of_nat (length [@OpAlloc Z]) + 1 < opsBound) by (vm_compute; reflexivity).
  assert (HG : Get refA s = (Ret (0, 0)%nat, s)) by (vm_compute; reflexivity).
  destruct (round_trip_and_stability 0 [OpAlloc] 3 Hn) as [_ H].
  destruct (H s refA (0, 0)%nat HG) as (H1 & H2 & _).
  auto.
Defined.

Lemma Realloc_contract_witness :
  let r := PointerStore.mkRefPointer 4096 8192 in
  let r2 := (PointerStore.Realloc r ∅).1 in
  let mem2 := (PointerStore.Realloc r ∅).2 in
  PointerStore.stale r ∅ = false /\
  PointerStore.DataPtr r2 mem2 = PointerStore.DataPtr r ∅ /\
  PointerStore.Gen r2 ≠ PointerStore.Gen r /\
  PointerStore.DataPtr r mem2 = PointerStore.Fail PointerStore.UseAfterFree.
Proof.
  intros r r2 mem2.
  assert (Hv : PointerStore.stale r ∅ = false) by (vm_compute; reflexivity).
  destruct (Realloc_contract r ∅ Hv) as (H1 & _ & H3 & _ & H5 & _).
  auto.
Defined.

Lemma tag_hiding_witness :
  let r := PointerStore.mkRefPointer 4096 8192 in
  let r' := PointerStore.setGen 255 r in
  let mem' := PointerStore.setMetadataGen 255 r ∅ in
  PointerStore.uint8 255 /\
  PointerStore.Gen r' = 255 /\
  PointerStore.DataPtr r' mem' = PointerStore.DataPtr r ∅ /\
  PointerStore.metadataPtr r' mem' = PointerStore.metadataPtr r ∅.
Proof.
  intros r r' mem'.
  assert (Hg : PointerStore.uint8 255) by (unfold PointerStore.uint8; lia).
  destruct (tag_hiding r ∅ 255 Hg) as (H1 & _ & _ & H4 & _).
  destruct H4 as [H4 H5]; [vm_compute; reflexivity|].
  auto.
Defined.

(** * Further properties of the store *)

Section More.

Context {O : Type} (zeroO : O).
Implicit Types (s : Store O) (r : Reference) (l : list Reference) (c : client O).

(** X1.  [Alloc] never panics in a store a client has reached.  The reference
    it returns is not nil, names a slot inside the chunks, is live, and
    comes with the pointer to the object of that slot. *)
Theorem Alloc_returns_valid_reference (ops : list (op O)) :
  Z.of_nat (length ops) + 1 < opsBound ->
  let s := c_store (run zeroO ops) in
  let s' := (Alloc zeroO s).2 in
  exists r,
    Alloc zeroO s = (Ret (r, slotOf r), s') /\
    IsNil r = false /\
    inBounds s' r /\
    live s' r /\
    is_Some (load s' (slotOf r)) /\
    Get r s' = (Ret (slotOf r), s').
Proof.
  intros Hn s s'. destruct (CInv_run zeroO ops) as [HI _]; [lia|]. fold s in HI.
  destruct (Inv_Alloc zeroO _ s HI) as (r & E & HI' & Ha & Hnf); [lia|].
  fold s' in E, HI', Ha, Hnf. exists r.
  pose proof (allocated_inBounds _ _ Ha) as Hb.
  split; [done|]. split; [apply IsNil_false, Ha|]. split; [done|].
  split; [done|]. split; [apply inBounds_object; [apply HI'|done]|].
  apply Get_live; [apply HI'|done..].
Qed.

(** X2.  With the zero value [Reference[O]{}] both [Get] and [Free] panic on
    the bounds check of the chunk index (0 - 1 wraps to 2^32 - 1), not with
    the "freed object" error, and leave the store as it was. *)
Theorem zero_reference_out_of_range (ops : list (op O)) :
  Z.of_nat (length ops) < opsBound ->
  let s := c_store (run zeroO ops) in
  Get nilRef s = (Panic IndexOutOfRange, s) /\
  Free nilRef s = (Panic IndexOutOfRange, s).
Proof.
  intros Hn s. destruct (CInv_run zeroO ops Hn) as [HI _]. fold s in HI.
  split; [apply Get_nilRef|apply Free_nilRef]; apply HI.
Qed.

(** X3.  A reference a client got from [Alloc] stays inside the chunks for
    ever: whatever the client has done since, the pointer it got with it is
    the one of its slot, [Get] returns that pointer or panics with
    "attempted to Get freed object", and [Free] succeeds or panics with
    "attempted to Free freed object"; neither fails the bounds check. *)
Theorem issued_reference_in_range (ops : list (op O)) i r p :
  Z.of_nat (length ops) < opsBound ->
  c_refs (run zeroO ops) !! i = Some (r, p) ->
  let s := c_store (run zeroO ops) in
  p = slotOf r /\
  (Get r s = (Ret p, s) \/ Get r s = (Panic (GetFreed r), s)) /\
  (Free r s = (Ret tt, freed r s) \/ Free r s = (Panic (FreeFreed r), s)).
Proof.
  intros Hn Hi s. destruct (CInv_run zeroO ops Hn) as [HI Hrefs]. fold s in HI, Hrefs.
  pose proof (Forall_lookup_1 _ _ _ _ Hrefs Hi) as [Ha Hp]. simpl in Ha, Hp.
  pose proof (allocated_inBounds _ _ Ha) as Hb. pose proof (inv_sized _ _ HI) as Hs.
  destruct (inBounds_meta s r Hs Hb) as [x Hx]. split; [done|]. subst p.
  destruct (IsNil x) eqn:E.
  - apply IsNil_true in E as ->. split; left; [by apply Get_live|by apply Free_live].
  - split; right; [by apply (Get_freed s r x)|by apply (Free_freed s r x)].
Qed.

(** X4.  The number of chunks is exactly one more than the raw allocations
    divided by the chunk size, and the offset counter is their remainder:
    the chunk that follows is appended by the allocation that fills a chunk,
    before it is needed. *)
Theorem chunks_exact (ops : list (op O)) :
  Z.of_nat (length ops) < 2 ^ 63 ->
  let s := c_store (run zeroO ops) in
  let st := GetStats s in
  Chunks st = RawAllocs st / objectChunkSize + 1 /\
  s_offset s = RawAllocs st mod objectChunkSize /\
  0 <= RawAllocs st.
Proof.
  intros Hn s st. destruct (counted_run zeroO ops Hn) as [Hcs Hoff Hraw Hre Hal Hfr].
  fold s in Hcs, Hoff, Hraw, Hre, Hal, Hfr.
  unfold st, GetStats; simpl. unfold nchunks, objectChunkSize in *.
  rewrite !wrapInt_small by lia.
  assert (E : allocs s - reused s = 1024 * (Z.of_nat (length (objects s)) - 1) + s_offset s) by lia.
  split; [|split; [|lia]].
  - rewrite <- (Z.div_unique_pos _ _ _ _ Hoff E). lia.
  - exact (Z.mod_unique_pos _ _ _ _ Hoff E).
Qed.


Lemma bumped_fields s :
  allocs (bumped zeroO s) = allocs s /\ frees (bumped zeroO s) = frees s /\
  reused (bumped zeroO s) = reused s.
Proof. unfold bumped. by destruct (s_offset _ =? chunkSize _). Qed.

Lemma balance_step n c o l :
  CInv n c -> n + 1 < opsBound ->
  freeList (c_store c) l ->
  Z.of_nat (length l) = frees (c_store c) - reused (c_store c) ->
  exists l', freeList (c_store (step zeroO c o)) l' /\
    Z.of_nat (length l') = frees (c_store (step zeroO c o)) - reused (c_store (step zeroO c o)).
Proof.
  intros [HI Hrefs] Hn Hfl Hlen. pose proof (inv_sized _ _ HI) as Hs.
  pose proof (inv_counted _ _ HI) as [_ _ _ Hre _ Hfr].
  assert (Hb63 : n + 1 < 2 ^ 63) by (unfold opsBound in *; lia).
  destruct o as [|h|h|i v]; simpl.
  - destruct l as [|r l].
    + rewrite (Alloc_fresh zeroO n _ HI Hn Hfl). simpl. exists []. split.
      * apply freeList_bumped; [by apply sized_counting|exact (Inv_room n _ HI Hn)|].
        by eapply freeList_ext; [..|exact Hfl].
      * destruct (bumped_fields (counting (c_store c))) as (_ & -> & ->). done.
    + rewrite (Alloc_reuse zeroO n _ r l HI Hfl). simpl. exists l. split.
      * by eapply Inv_popped.
      * simpl in Hlen. rewrite wrapInt_small; lia.
  - destruct h as [i|]; simpl.
    + destruct (c_refs c !! i) as [[r p]|] eqn:E; simpl; [|by exists l].
      pose proof (Forall_lookup_1 _ _ _ _ Hrefs E) as [Ha _]. simpl in Ha.
      destruct (inBounds_meta _ r Hs (allocated_inBounds _ _ Ha)) as [x Hx].
      destruct (IsNil x) eqn:Ex.
      * apply IsNil_true in Ex as ->. rewrite Free_live by done. simpl.
        exists (r :: l). split; [by eapply Inv_freed|].
        simpl length. rewrite wrapInt_small; lia.
      * rewrite (Free_freed _ r x) by done. by exists l.
    + rewrite Free_nilRef by done. by exists l.
  - destruct (handleRef _ h); [|by exists l]. simpl. rewrite Get_store. by exists l.
  - destruct (c_refs c !! i) as [[r p]|]; [|by exists l]. simpl. exists l. split; [|done].
    eapply freeList_ext; [..|exact Hfl]; simpl; auto. by rewrite length_set2.
Qed.

Lemma balance_run ops :
  Z.of_nat (length ops) < opsBound ->
  exists l, freeList (c_store (run zeroO ops)) l /\
    Z.of_nat (length l) = frees (c_store (run zeroO ops)) - reused (c_store (run zeroO ops)).
Proof.
  induction ops as [|o ops IH] using rev_ind; intros Hn.
  - exists []. split; [apply freeList_New|done].
  - rewrite length_app in Hn. simpl in Hn.
    destruct IH as (l & Hfl & Hlen); [lia|]. rewrite run_snoc.
    apply (balance_step (Z.of_nat (length ops)) _ o l); [apply CInv_run; lia|lia|done..].
Qed.

(** X6.  The free list holds exactly the slots that were freed and not yet
    reused: its length is [frees - reused].  So [Alloc] takes a slot the
    offset counter has not passed exactly when every freed slot has been
    reused. *)
Theorem free_list_balance (ops : list (op O)) :
  Z.of_nat (length ops) + 1 < opsBound ->
  let s := c_store (run zeroO ops) in
  exists l,
    freeList s l /\
    Z.of_nat (length l) = frees s - reused s /\
    (rootFree s = nilRef <-> frees s = reused s) /\
    (frees s = reused s ->
       Alloc zeroO s = (Ret (bumpRef s, slotOf (bumpRef s)), bumped zeroO (counting s))) /\
    (frees s ≠ reused s ->
       Alloc zeroO s = (Ret (rootFree s, slotOf (rootFree s)), (Alloc zeroO s).2) /\
       s_offset (Alloc zeroO s).2 = s_offset s /\
       objects (Alloc zeroO s).2 = objects s).
Proof.
  intros Hn s. destruct (balance_run ops) as (l & Hfl & Hlen); [lia|]. fold s in Hfl, Hlen.
  destruct (CInv_run zeroO ops) as [HI _]; [lia|]. fold s in HI.
  exists l. split; [done|]. split; [done|].
  assert (Hnil : l = [] <-> frees s = reused s).
  { rewrite <- length_zero_iff_nil. lia. }
  split; [|split].
  - rewrite <- Hnil. split.
    + intros Hroot. apply (freeList_nil_root s l Hfl). by rewrite Hroot.
    + intros ->. apply IsNil_true. by apply freeList_root_nil.
  - intros Heq. apply Hnil in Heq. subst l. by apply (Alloc_fresh zeroO _ s HI).
  - intros Hne. destruct l as [|r l]; [by destruct Hne; apply Hnil|].
    destruct (freeList_root_cons _ _ _ Hfl) as [-> _].
    by rewrite (Alloc_reuse zeroO _ s r l HI Hfl).
Qed.





Lemma free_then_alloc ops i r p :
  Z.of_nat (length ops) + 2 < opsBound ->
  c_refs (run zeroO ops) !! i = Some (r, p) ->
  let s := c_store (run zeroO ops) in
  nf s r = Some nilRef ->
  let s1 := freed r s in
  let s2 := popped (if IsNil (rootFree s) then r else rootFree s) (reusing (counting s1)) in
  p = slotOf r /\ Free r s = (Ret tt, s1) /\ Alloc zeroO s1 = (Ret (r, p), s2) /\
  Inv (Z.of_nat (length ops) + 2) s2 /\ live s2 r.
Proof.
  intros Hn Hi s Hnf s1 s2.
  destruct (CInv_run zeroO ops) as [HI Hrefs]; [lia|]. fold s in HI, Hrefs.
  pose proof (Forall_lookup_1 _ _ _ _ Hrefs Hi) as [Ha Hp]. simpl in Ha, Hp. subst p.
  destruct (inv_free _ _ HI) as [l Hfl].
  destruct (Inv_freed _ s r l HI) as [HI1 Hfl1]; auto; [lia|]. fold s1 in HI1, Hfl1.
  assert (Ehd : hd r l = if IsNil (rootFree s) then r else rootFree s).
  { destruct l as [|a l].
    - by rewrite (freeList_root_nil _ Hfl).
    - destruct (freeList_root_cons _ _ _ Hfl) as [-> ->]. done. }
  destruct (Inv_popped _ s1 r l HI1) as [HI2 Hfl2]; auto; [lia|].
  rewrite Ehd in HI2, Hfl2. fold s2 in HI2, Hfl2.
  split; [done|]. split; [by apply Free_live|]. split.
  { rewrite (Alloc_reuse zeroO _ s1 r l HI1 Hfl1). by rewrite Ehd. }
  split.
  { replace (Z.of_nat (length ops) + 2) with (Z.of_nat (length ops) + 1 + 1) by lia. done. }
  split; [done|].
  refine (nf_popped_eq _ (reusing (counting s1)) _ _).
  - apply sized_reusing, sized_counting, HI1.
  - by apply allocated_inBounds.
Qed.

(** X8.  A slot is handed out again with the object it held when it was freed:
    neither [Free] nor the [Alloc] that reuses the slot writes to the
    objects, so the pointer returned for the reused slot reads the old
    value. *)
Theorem reuse_keeps_content (ops : list (op O)) i r p :
  Z.of_nat (length ops) + 2 < opsBound ->
  c_refs (run zeroO ops) !! i = Some (r, p) ->
  let s := c_store (run zeroO ops) in
  nf s r = Some nilRef ->
  let s1 := (Free r s).2 in
  let s2 := (Alloc zeroO s1).2 in
  Free r s = (Ret tt, s1) /\
  Alloc zeroO s1 = (Ret (r, p), s2) /\
  objects s1 = objects s /\ objects s2 = objects s /\
  load s2 p = load s p.
Proof.
  intros Hn Hi s Hnf s1 s2.
  destruct (free_then_alloc ops i r p Hn Hi Hnf) as (Hp & E1 & E2 & _).
  fold s in E1, E2.
  assert (Es1 : s1 = freed r s) by (unfold s1; by rewrite E1).
  assert (Es2 : s2 = (Alloc zeroO (freed r s)).2) by (unfold s2; by rewrite Es1).
  rewrite E2 in Es2. cbn [snd] in Es2.
  rewrite Es1, Es2. split; [done|]. split; [done|]. done.
Qed.

(** X9.  Once [Alloc] has handed a freed slot out again, a second [Free] with
    the reference that was freed is not detected: it succeeds and puts the
    slot of the new owner on the free list. *)
Theorem double_free_undetected_after_reuse (ops : list (op O)) i r p :
  Z.of_nat (length ops) + 2 < opsBound ->
  c_refs (run zeroO ops) !! i = Some (r, p) ->
  let s := c_store (run zeroO ops) in
  nf s r = Some nilRef ->
  let s1 := (Free r s).2 in
  let s2 := (Alloc zeroO s1).2 in
  Free r s = (Ret tt, s1) /\
  Alloc zeroO s1 = (Ret (r, p), s2) /\
  Free r s2 = (Ret tt, freed r s2) /\
  rootFree (freed r s2) = r /\
  frees (freed r s2) = frees s + 2.
Proof.
  intros Hn Hi s Hnf s1 s2.
  destruct (free_then_alloc ops i r p Hn Hi Hnf) as (Hp & E1 & E2 & HI2 & [_ Hnf2]).
  destruct (CInv_run zeroO ops) as [HI _]; [lia|]. fold s in HI, E1, E2, HI2, Hnf2.
  pose proof (inv_counted _ _ HI) as [_ _ _ _ _ Hfr].
  assert (Es1 : s1 = freed r s) by (unfold s1; by rewrite E1).
  assert (Es2 : s2 = (Alloc zeroO (freed r s)).2) by (unfold s2; by rewrite Es1).
  rewrite E2 in Es2. cbn [snd] in Es2.
  rewrite Es1, Es2. split; [done|]. split; [done|]. split; [by apply Free_live|].
  split; [done|]. simpl. unfold opsBound in *.
  rewrite (wrapInt_small (frees s + 1)) by lia. rewrite wrapInt_small; lia.
Qed.

(** X10.  [Free] of one reference leaves every other live reference as it was:
    it is still live, [Get] returns the same pointer, and no object has
    changed. *)
Theorem Free_keeps_others (ops : list (op O)) i r p r' :
  Z.of_nat (length ops) < opsBound ->
  c_refs (run zeroO ops) !! i = Some (r, p) ->
  let s := c_store (run zeroO ops) in
  live s r' -> r' ≠ r ->
  let s1 := (Free r s).2 in
  live s1 r' /\
  Get r' s1 = (Ret (slotOf r'), s1) /\
  Get r' s = (Ret (slotOf r'), s) /\
  objects s1 = objects s.
Proof.
  intros Hn Hi s [Ha' Hnf'] Hne s1.
  destruct (CInv_run zeroO ops Hn) as [HI Hrefs]. fold s in HI, Hrefs.
  pose proof (Forall_lookup_1 _ _ _ _ Hrefs Hi) as [Ha _]. simpl in Ha.
  pose proof (inv_sized _ _ HI) as Hs.
  assert (HG : Get r' s = (Ret (slotOf r'), s)).
  { apply Get_live; auto using allocated_inBounds. }
  unfold s1. destruct (Free_store r s) as [->|E]; [done|]. rewrite E. simpl.
  assert (Hl : live (freed r s) r').
  { split; [done|]. rewrite nf_freed_ne; auto using allocated_inBounds. }
  split; [done|]. split; [|done].
  destruct Hl. apply Get_live; [by apply sized_freed|by apply allocated_inBounds|done].
Qed.

Lemma nthRef_bumpRef n s :
  counted (Z.of_nat n) s -> Z.of_nat n < opsBound ->
  allocs s = Z.of_nat n -> reused s = 0 -> bumpRef s = nthRef n.
Proof.
  intros [Hcs Hoff Hraw Hre Hal Hfr] Hn Ha Hr.
  unfold bumpRef, nthRef, nchunks, opsBound, objectChunkSize in *.
  assert (E : Z.of_nat n = 1024 * (Z.of_nat (length (objects s)) - 1) + s_offset s) by lia.
  rewrite <- (Z.div_unique_pos _ _ _ _ Hoff E), <- (Z.mod_unique_pos _ _ _ _ Hoff E).
  rewrite !wrap32_small by lia. f_equal. lia.
Qed.

Lemma sequential_run n :
  Z.of_nat n < opsBound ->
  let c := run zeroO (replicate n OpAlloc) in
  freeList (c_store c) [] /\ allocs (c_store c) = Z.of_nat n /\ reused (c_store c) = 0 /\
  c_refs c = (fun i => (nthRef i, slotOf (nthRef i))) <$> seq 0 n.
Proof.
  induction n as [|n IH]; intros Hn c.
  - split; [apply freeList_New|done].
  - destruct IH as (Hfl & Ha & Hr & Hrefs); [lia|].
    unfold c. rewrite replicate_S_end, run_snoc, seq_S, fmap_app.
    set (c0 := run zeroO (replicate n OpAlloc)) in *.
    destruct (CInv_run zeroO (replicate n OpAlloc)) as [HI _];
      [rewrite length_replicate; lia|].
    rewrite length_replicate in HI. fold c0 in HI.
    simpl. rewrite (Alloc_fresh zeroO _ _ HI) by (done || lia). simpl.
    destruct (bumped_fields (counting (c_store c0))) as (-> & _ & ->). simpl.
    split; [|split; [|split; [done|]]].
    + apply freeList_bumped; [apply sized_counting, HI|apply (Inv_room _ _ HI); lia|].
      by eapply freeList_ext; [..|exact Hfl].
    + rewrite Ha. unfold opsBound in *. rewrite wrapInt_small; lia.
    + rewrite Hrefs. simpl.
      rewrite (nthRef_bumpRef n); [done|apply HI|lia|done..].
Qed.

(** X11.  Without frees the references come out in sequence: the [i]-th call of
    [Alloc] on a new store (counting from 0) returns chunk [i / 1024 + 1]
    and offset [i mod 1024 + 1], so each chunk is filled before the next
    one is used. *)
Theorem allocs_are_sequential (n : nat) :
  Z.of_nat n < opsBound ->
  c_refs (run zeroO (replicate n OpAlloc))
  = (fun i => (nthRef i, slotOf (nthRef i))) <$> seq 0 n.
Proof. intros Hn. by destruct (sequential_run n Hn) as (_ & _ & _ & H). Qed.

(** X13.  The metadata and the objects are kept in parallel: in every store a
    client has reached there are as many chunks of metadata as of objects,
    every chunk has exactly [objectChunkSize] entries, and a slot has a
    metadata record exactly when it has an object. *)
Theorem meta_parallel_to_objects (ops : list (op O)) :
  Z.of_nat (length ops) < opsBound ->
  let s := c_store (run zeroO ops) in
  length (s_meta s) = length (objects s) /\
  (forall k ch, s_meta s !! k = Some ch -> length ch = Z.to_nat objectChunkSize) /\
  (forall k ch, objects s !! k = Some ch -> length ch = Z.to_nat objectChunkSize) /\
  (forall p, is_Some (get2 (s_meta s) p) <-> is_Some (load s p)).
Proof.
  intros Hn s. destruct (CInv_run zeroO ops Hn) as [HI _]. fold s in HI.
  destruct (inv_sized _ _ HI) as [_ _ _ Hlen Hm Ho].
  split; [done|]. split; [|split].
  - intros k ch. apply (Forall_lookup_1 _ _ _ _ Hm).
  - intros k ch. apply (Forall_lookup_1 _ _ _ _ Ho).
  - intros p. unfold load. rewrite !get2_shaped by done. by rewrite Hlen.
Qed.

Lemma step_store c o :
  c_store (step zeroO c o) = c_store c \/
  c_store (step zeroO c o) = (Alloc zeroO (c_store c)).2 \/
  (exists r, c_store (step zeroO c o) = (Free r (c_store c)).2) \/
  (exists p v, c_store (step zeroO c o) = store (c_store c) p v).
Proof.
  destruct o as [|h|h|i v]; simpl.
  - right. left. by destruct (Alloc zeroO (c_store c)) as [[rp|e] s'].
  - destruct (handleRef _ h) as [r|]; [|by left]. right. right. left. by exists r.
  - destruct (handleRef _ h) as [r|]; [|by left]. left. simpl. apply Get_store.
  - destruct (c_refs c !! i) as [[r p]|]; [|by left]. right. right. right. by exists p, v.
Qed.

(** X14.  No call makes a counter or the number of chunks smaller; each call
    adds at most one to each of them. *)
Theorem stats_monotone (ops : list (op O)) (o : op O) :
  Z.of_nat (length ops) + 1 < 2 ^ 63 ->
  let st := GetStats (c_store (run zeroO ops)) in
  let st' := GetStats (c_store (run zeroO (ops ++ [o]))) in
  Allocs st <= Allocs st' <= Allocs st + 1 /\
  Frees st <= Frees st' <= Frees st + 1 /\
  Reused st <= Reused st' <= Reused st + 1 /\
  RawAllocs st <= RawAllocs st' <= RawAllocs st + 1 /\
  Chunks st <= Chunks st' <= Chunks st + 1.
Proof.
  intros Hn st st'. unfold st, st'. rewrite run_snoc.
  destruct (counted_run zeroO ops) as [Hcs Hoff Hraw Hre Hal Hfr]; [lia|].
  set (c := run zeroO ops) in *. set (s := c_store c) in *.
  assert (Hs : forall s', chunkSize s' = chunkSize s -> allocs s' = allocs s ->
             frees s' = frees s -> reused s' = reused s ->
             length (objects s') = length (objects s) ->
             Allocs (GetStats s) <= Allocs (GetStats s') <= Allocs (GetStats s) + 1 /\
             Frees (GetStats s) <= Frees (GetStats s') <= Frees (GetStats s) + 1 /\
             Reused (GetStats s) <= Reused (GetStats s') <= Reused (GetStats s) + 1 /\
             RawAllocs (GetStats s) <= RawAllocs (GetStats s') <= RawAllocs (GetStats s) + 1 /\
             Chunks (GetStats s) <= Chunks (GetStats s') <= Chunks (GetStats s) + 1).
  { intros s' _ Ea Ef Er El. unfold GetStats; simpl. rewrite Ea, Ef, Er, El. lia. }
  destruct (step_store c o) as [E|[E|[[r E]|(p & v & E)]]]; fold s in E; rewrite E.
  - by apply Hs.
  - destruct (Alloc_store zeroO s) as [->|[->|[x ->]]].
    + destruct (bumped_fields (counting s)) as (Ea & Ef & Er).
      destruct (bumped_offset zeroO (counting s) Hcs Hoff) as [[_ E']|[_ E']];
        unfold GetStats; rewrite Ea, Ef, Er, E'; simpl;
        rewrite ?length_app; simpl; rewrite !wrapInt_small; rewrite ?wrapInt_small; lia.
    + unfold GetStats; simpl. rewrite !wrapInt_small; rewrite ?wrapInt_small; lia.
    + unfold GetStats; simpl. rewrite !wrapInt_small; rewrite ?wrapInt_small; lia.
  - destruct (Free_store r s) as [->|E']; [by apply Hs|]. rewrite E'.
    unfold GetStats; simpl. rewrite !wrapInt_small; rewrite ?wrapInt_small; lia.
  - apply Hs; simpl; auto. by rewrite length_set2.
Qed.

End More.

(** * The helpers of the tests *)

Lemma writeToField_loop (field : list Z) (b : Z) (k : nat) :
  (k <= length field)%nat ->
  foldl (fun f i => <[i := b]> f) field (seq 0 k) = replicate k b ++ drop k field.
Proof.
  induction k as [|k IH]; intros Hk; [done|].
  rewrite seq_S, foldl_snoc, IH, replicate_S_end, <- app_assoc by lia.
  destruct (lookup_lt_is_Some_2 field k) as [y Hy]; [lia|].
  rewrite (drop_S _ _ _ Hy). cbn [Nat.add].
  rewrite insert_app_r_alt by (rewrite length_replicate; lia).
  by rewrite length_replicate, Nat.sub_diag.
Qed.

(** X12.  [writeToField] sets every byte of the slice to the low 8 bits of
    [value] and keeps its length; it is the slice [generateField] makes for
    that length, which is what the tests compare it with; on a slice that
    is not empty two values give the same bytes exactly when they agree
    modulo 256; and [generateField] panics for a negative size. *)
Theorem writeToField_fills (field : list Z) (value : Z) :
  writeToField field value = replicate (length field) (value mod 256) /\
  generateField (Z.of_nat (length field)) value = Some (writeToField field value) /\
  (forall value', field ≠ [] ->
     (writeToField field value = writeToField field value' <->
      value mod 256 = value' mod 256)) /\
  (forall size, size < 0 -> generateField size value = None).
Proof.
  assert (H : forall f v, writeToField f v = replicate (length f) (v mod 256)).
  { intros f v. unfold writeToField. rewrite writeToField_loop by done.
    by rewrite drop_all, app_nil_r. }
  split; [apply H|]. split; [|split].
  - unfold generateField. destruct (Z.ltb_spec (Z.of_nat (length field)) 0); [lia|].
    by rewrite !H, length_replicate, Nat2Z.id.
  - intros v' Hne. rewrite !H. destruct field as [|x f]; [done|]. simpl.
    split; [by intros [= ->]|by intros ->].
  - intros size Hs. unfold generateField. by destruct (Z.ltb_spec size 0); [|lia].
Qed.

(** * The further properties at work *)

Lemma Alloc_returns_valid_reference_witness :
  let ops : list (op Z) := [OpAlloc; OpFree (Issued 0)] in
  let s := c_store (run 0 ops) in
  Z.of_nat (length ops) + 1 < opsBound /\
  exists r, Alloc 0 s = (Ret (r, slotOf r), (Alloc 0 s).2) /\ IsNil r = false.
Proof.
  intros ops s.
  assert (Hn : Z.of_nat (length ops) + 1 < opsBound) by (vm_compute; reflexivity).
  split; [exact Hn|].
  destruct (Alloc_returns_valid_reference 0 ops Hn) as (r & H1 & H2 & _).
  exists r. split; [exact H1|exact H2].
Defined.

Lemma zero_reference_out_of_range_witness :
  let ops : list (op Z) := [OpAlloc] in
  let s := c_store (run 0 ops) in
  Z.of_nat (length ops) < opsBound /\
  Get nilRef s = (Panic IndexOutOfRange, s) /\
  Free nilRef s = (Panic IndexOutOfRange, s).
Proof.
  intros ops s.
  assert (Hn : Z.of_nat (length ops) < opsBound) by (vm_compute; reflexivity).
  split; [exact Hn|]. exact (zero_reference_out_of_range 0 ops Hn).
Defined.

Lemma issued_reference_in_range_witness :
  let ops : list (op Z) := [OpAlloc; OpFree (Issued 0)] in
  let s := c_store (run 0 ops) in
  c_refs (run 0 ops) !! 0%nat = Some (refA, (0, 0)%nat) /\
  (Get refA s = (Ret (0, 0)%nat, s) \/ Get refA s = (Panic (GetFreed refA), s)).
Proof.
  intros ops s.
  assert (Hn : Z.of_nat (length ops) < opsBound) by (vm_compute; reflexivity).
  assert (Hi : c_refs (run 0 ops) !! 0%nat = Some (refA, (0, 0)%nat))
    by (vm_compute; reflexivity).
  split; [exact Hi|].
  destruct (issued_reference_in_range 0 ops 0%nat refA (0, 0)%nat Hn Hi) as (_ & H & _).
  exact H.
Defined.

Lemma chunks_exact_witness :
  Z.of_nat (length freeAndReuse) < 2 ^ 63 /\
  let s := c_store (run 0 freeAndReuse) in
  let st := GetStats s in
  Chunks st = RawAllocs st / objectChunkSize + 1 /\
  s_offset s = RawAllocs st mod objectChunkSize /\
  0 <= RawAllocs st.
Proof.
  assert (Hn : Z.of_nat (length freeAndReuse) < 2 ^ 63) by (simpl; lia).
  split; [exact Hn|]. exact (chunks_exact 0 freeAndReuse Hn).
Defined.


Lemma free_list_balance_witness :
  let ops : list (op Z) := [OpAlloc; OpAlloc; OpFree (Issued 0)] in
  let s := c_store (run 0 ops) in
  Z.of_nat (length ops) + 1 < opsBound /\
  exists l, freeList s l /\ Z.of_nat (length l) = frees s - reused s.
Proof.
  intros ops s.
  assert (Hn : Z.of_nat (length ops) + 1 < opsBound) by (vm_compute; reflexivity).
  split; [exact Hn|].
  destruct (free_list_balance 0 ops Hn) as (l & H1 & H2 & _).
  exists l. split; [exact H1|exact H2].
Defined.


Lemma reuse_keeps_content_witness :
  let ops : list (op Z) := [OpAlloc; OpStore 0 42] in
  let s := c_store (run 0 ops) in
  let s1 := (Free refA s).2 in
  let s2 := (Alloc 0 s1).2 in
  load s (0, 0)%nat = Some 42 /\
  Alloc 0 s1 = (Ret (refA, (0, 0)%nat), s2) /\
  load s2 (0, 0)%nat = load s (0, 0)%nat.
Proof.
  intros ops s s1 s2.
  assert (Hn : Z.of_nat (length ops) + 2 < opsBound) by (vm_compute; reflexivity).
  assert (Hi : c_refs (run 0 ops) !! 0%nat = Some (refA, (0, 0)%nat))
    by (vm_compute; reflexivity).
  assert (Hnf : nf s refA = Some nilRef) by (vm_compute; reflexivity).
  split; [vm_compute; reflexivity|].
  destruct (reuse_keeps_content 0 ops 0%nat refA (0, 0)%nat Hn Hi Hnf)
    as (_ & H2 & _ & _ & H5).
  split; [exact H2|exact H5].
Defined.

Lemma double_free_undetected_after_reuse_witness :
  let ops : list (op Z) := [OpAlloc] in
  let s := c_store (run 0 ops) in
  let s1 := (Free refA s).2 in
  let s2 := (Alloc 0 s1).2 in
  nf s refA = Some nilRef /\
  Free refA s = (Ret tt, s1) /\
  Alloc 0 s1 = (Ret (refA, (0, 0)%nat), s2) /\
  Free refA s2 = (Ret tt, freed refA s2).
Proof.
  intros ops s s1 s2.
  assert (Hn : Z.of_nat (length ops) + 2 < opsBound) by (vm_compute; reflexivity).
  assert (Hi : c_refs (run 0 ops) !! 0%nat = Some (refA, (0, 0)%nat))
    by (vm_compute; reflexivity).
  assert (Hnf : nf s refA = Some nilRef) by (vm_compute; reflexivity).
  split; [exact Hnf|].
  destruct (double_free_undetected_after_reuse 0 ops 0%nat refA (0, 0)%nat Hn Hi Hnf)
    as (H1 & H2 & H3 & _).
  split; [exact H1|]. split; [exact H2|exact H3].
Defined.

Lemma Free_keeps_others_witness :
  let ops : list (op Z) := [OpAlloc; OpAlloc] in
  let s := c_store (run 0 ops) in
  let s1 := (Free refA s).2 in
  live s refB /\ refB ≠ refA /\
  live s1 refB /\ Get refB s1 = (Ret (slotOf refB), s1) /\ objects s1 = objects s.
Proof.
  intros ops s s1.
  assert (Hn : Z.of_nat (length ops) < opsBound) by (vm_compute; reflexivity).
  assert (Hi : c_refs (run 0 ops) !! 0%nat = Some (refA, (0, 0)%nat))
    by (vm_compute; reflexivity).
  assert (Hl : live s refB) by (split; vm_compute; [intuition congruence|reflexivity]).
  assert (Hne : refB ≠ refA) by discriminate.
  split; [exact Hl|]. split; [exact Hne|].
  destruct (Free_keeps_others 0 ops 0%nat refA (0, 0)%nat refB Hn Hi Hl Hne)
    as (H1 & H2 & _ & H4).
  split; [exact H1|]. split; [exact H2|exact H4].
Defined.

Lemma allocs_are_sequential_witness :
  Z.of_nat 1025 < opsBound /\
  c_refs (run 0 (replicate 1025 OpAlloc))
  = (fun i => (nthRef i, slotOf (nthRef i))) <$> seq 0 1025.
Proof.
  assert (Hn : Z.of_nat 1025 < opsBound) by (vm_compute; reflexivity).
  split; [exact Hn|]. exact (allocs_are_sequential 0 1025 Hn).
Defined.

Lemma writeToField_fills_witness :
  [1; 2; 3] ≠ [] /\ 300 mod 256 = 44 mod 256 /\
  writeToField [1; 2; 3] 300 = writeToField [1; 2; 3] 44.
Proof.
  assert (Hne : [1; 2; 3] ≠ []) by discriminate.
  assert (Hm : 300 mod 256 = 44 mod 256) by reflexivity.
  split; [exact Hne|]. split; [exact Hm|].
  destruct (writeToField_fills [1; 2; 3] 300) as (_ & _ & H & _).
  apply (H 44 Hne). exact Hm.
Defined.

Lemma meta_parallel_to_objects_witness :
  let ops : list (op Z) := [OpAlloc] in
  let s := c_store (run 0 ops) in
  Z.of_nat (length ops) < opsBound /\
  length (s_meta s) = length (objects s) /\
  (is_Some (get2 (s_meta s) (0, 0)%nat) <-> is_Some (load s (0, 0)%nat)).
Proof.
  intros ops s.
  assert (Hn : Z.of_nat (length ops) < opsBound) by (vm_compute; reflexivity).
  split; [exact Hn|].
  destruct (meta_parallel_to_objects 0 ops Hn) as (H1 & _ & _ & H4).
  split; [exact H1|exact (H4 (0, 0)%nat)].
Defined.

Lemma stats_monotone_witness :
  Z.of_nat (length freeAndReuse) + 1 < 2 ^ 63 /\
  let st := GetStats (c_store (run 0 freeAndReuse)) in
  let st' := GetStats (c_store (run 0 (freeAndReuse ++ [OpAlloc]))) in
  Allocs st <= Allocs st' <= Allocs st + 1 /\
  Chunks st <= Chunks st' <= Chunks st + 1.
Proof.
  assert (Hn : Z.of_nat (length freeAndReuse) + 1 < 2 ^ 63) by (simpl; lia).
  split; [exact Hn|].
  destruct (stats_monotone 0 freeAndReuse OpAlloc Hn) as (H1 & _ & _ & _ & H5).
  split; [exact H1|exact H5].
Defined.
